(** * cordova-windows: the manifest munger of [template/cordova/lib/ConfigChanges.js]

    A shallow embedding of the two variants of [ConfigChanges.js] (the
    per-manifest-aware one, called Variant A, and the legacy one, called
    Variant B) and the properties of its capability deduplication, sorting,
    prefixing and manifest demultiplexing, of [apply_file_munge] and
    [cloneObject], and of the base64 encoder of [windows8/cordova.js]. *)

From Stdlib Require Import String Ascii.
From stdpp Require Import gmap list sorting fin_maps.

Local Open Scope N_scope.

(** ** JavaScript strings

    A JavaScript string is a sequence of UTF-16 code units; [===], [<] and [>]
    on strings and the regular expressions of the source all work on code
    units. *)

Abbreviation jsstring := (list N).

(** An ASCII literal as a JavaScript string. *)
Definition js (s : string) : jsstring :=
  (λ a, N_of_ascii a) <$> list_ascii_of_string s.

Definition QUOTE : N := 34.

(** The regular expression class [\s]: WhiteSpace and LineTerminator of
    ECMAScript. *)
Definition is_space (c : N) : bool :=
  ((9 <=? c) && (c <=? 13)) || (c =? 32) || (c =? 160) || (c =? 5760)
  || ((8192 <=? c) && (c <=? 8202)) || (c =? 8232) || (c =? 8233)
  || (c =? 8239) || (c =? 8287) || (c =? 12288) || (c =? 65279).

(** The regular expression class [\w]: [A-Za-z0-9_]. *)
Definition is_word (c : N) : bool :=
  ((48 <=? c) && (c <=? 57)) || ((65 <=? c) && (c <=? 90)) || (c =? 95)
  || ((97 <=? c) && (c <=? 122)).

(** Canonicalize of a code unit under the [i] flag (no [u] flag), as far as
    comparisons against ASCII pattern characters go: an ASCII lower-case
    letter is upper-cased; a code unit of 128 or more never canonicalizes to
    an ASCII one, and is left as it is. *)
Definition canonicalize (c : N) : N :=
  if (97 <=? c) && (c <=? 122) then c - 32 else c.

(** [strip_prefix pat s]: the rest of [s] after the literal [pat], when [s]
    starts with it. *)
Fixpoint strip_prefix (pat s : jsstring) : option jsstring :=
  match pat, s with
  | [], _ => Some s
  | p :: pat', c :: s' => if p =? c then strip_prefix pat' s' else None
  | _ :: _, [] => None
  end.

(** The same under the [i] flag. *)
Fixpoint strip_prefix_ci (pat s : jsstring) : option jsstring :=
  match pat, s with
  | [], _ => Some s
  | p :: pat', c :: s' =>
      if canonicalize p =? canonicalize c then strip_prefix_ci pat' s' else None
  | _ :: _, [] => None
  end.

(** The longest run of word characters at the head of a string, and the rest. *)
Fixpoint span_word (s : jsstring) : jsstring * jsstring :=
  match s with
  | c :: s' =>
      if is_word c then let '(w, r) := span_word s' in (c :: w, r) else ([], s)
  | [] => ([], [])
  end.

(** [/Name="(\w+)"/i] tried at the head of [s]: the capture group. The greedy
    [\w+] takes the whole run of word characters; a shorter run is followed by
    a word character, never by the closing quote. *)
Definition NAME_ATTR : jsstring := js "Name=" ++ [QUOTE].

Definition match_name_at (s : jsstring) : option jsstring :=
  rest ← strip_prefix_ci NAME_ATTR s;
  match span_word rest with
  | (c :: w, q :: _) => if q =? QUOTE then Some (c :: w) else None
  | _ => None
  end.

(** [xml.match(/Name="(\w+)"/i)]: the leftmost position where the pattern
    matches; [None] is the [null] that [match] returns. *)
Fixpoint match_name (s : jsstring) : option jsstring :=
  match match_name_at s with
  | Some w => Some w
  | None => match s with
            | [] => None
            | _ :: s' => match_name s'
            end
  end.

(** [/^\s*<Capability\s/.test(s)]. *)
Fixpoint skip_space (s : jsstring) : jsstring :=
  match s with
  | c :: s' => if is_space c then skip_space s' else s
  | [] => []
  end.

Definition test_capability_open (s : jsstring) : bool :=
  match strip_prefix (js "<Capability") (skip_space s) with
  | Some (c :: _) => is_space c
  | _ => false
  end.

(** [s.replace(/Capability/, 'uap:Capability')] and the like: the first
    occurrence of a literal pattern is replaced ([rep] has no [$]). *)
Fixpoint replace_first (pat rep s : jsstring) : jsstring :=
  match strip_prefix pat s with
  | Some rest => rep ++ rest
  | None => match s with
            | [] => []
            | c :: s' => c :: replace_first pat rep s'
            end
  end.

(** [a < b] on strings: the lexicographic order of the code units. *)
Fixpoint str_lt (a b : jsstring) : bool :=
  match a, b with
  | [], [] => false
  | [], _ :: _ => true
  | _ :: _, [] => false
  | x :: a', y :: b' => if x <? y then true else if x =? y then str_lt a' b' else false
  end.

Definition str_eqb (a b : jsstring) : bool := bool_decide (a = b).

(** ** Errors

    The only error the modelled functions raise is the TypeError of a property
    read on [null] or [undefined]; it is never caught. *)

Inductive js_error := TypeError.

Inductive result (A : Type) :=
  | Ok (a : A)
  | Throw (e : js_error).
Arguments Ok {A} a.
Arguments Throw {A} e.

#[global] Instance result_ret : MRet result := λ A a, Ok a.
#[global] Instance result_bind : MBind result := λ A B f m,
  match m with
  | Ok a => f a
  | Throw e => Throw e
  end.

#[global] Instance js_error_eq_dec : EqDecision js_error.
Proof. solve_decision. Defined.

#[global] Instance result_eq_dec {A} `{EqDecision A} : EqDecision (result A).
Proof. solve_decision. Defined.

Definition raises {A} (m : result A) : Prop := ∃ e, m = Throw e.

(** ** Changes and munges

    A field that the source reads with [typeof ... !== 'undefined'] or leaves
    out of an object literal is [None] when it is undefined. *)

Record Change := mkChange {
  target : option jsstring;
  parent : option jsstring;
  after : option jsstring;
  xmls : option (list jsstring);
  versions : option jsstring;
  deviceTarget : option jsstring;
  xml : option jsstring;
  count : option Z;
  before : option jsstring
}.

#[global] Instance Change_eq_dec : EqDecision Change.
Proof. solve_decision. Defined.

(** A munge: [{ parents: { selector: [changes] } }]. *)
Record Munge := mkMunge { parents : gmap jsstring (list Change) }.

(** ** Arrays

    [Array.prototype.some] and [Array.prototype.reduce] with a callback that
    may throw: the callback runs on the elements in order, [some] stops at the
    first [true], and an element that is never reached is never evaluated. *)

Fixpoint array_some {A} (f : A → result bool) (l : list A) : result bool :=
  match l with
  | [] => Ok false
  | x :: l' => b ← f x; if b : bool then Ok true else array_some f l'
  end.

Fixpoint array_reduce {A B} (f : A → B → result A) (l : list B) (init : A) : result A :=
  match l with
  | [] => Ok init
  | x :: l' => a ← f init x; array_reduce f l' a
  end.

(** [Array.prototype.sort] with a comparator that may throw, as a stable
    insertion sort: an element goes before the first element of the sorted
    rest that it does not compare greater than. *)
Fixpoint sort_insert {A} (comparefn : A → A → result Z) (x : A) (l : list A)
  : result (list A) :=
  match l with
  | [] => Ok [x]
  | y :: l' =>
      order ← comparefn x y;
      if (order <=? 0)%Z then Ok (x :: y :: l')
      else r ← sort_insert comparefn x l'; Ok (y :: r)
  end.

Fixpoint array_sort {A} (comparefn : A → A → result Z) (l : list A)
  : result (list A) :=
  match l with
  | [] => Ok []
  | x :: l' => s ← array_sort comparefn l'; sort_insert comparefn x s
  end.

(** ** Capability names, deduplication and order (Variant A) *)

(** [capability.xml.match(reg)[1]]: a TypeError when [xml] is undefined or
    when [match] returns [null]. *)
Definition getCapabilityName (capability : Change) : result jsstring :=
  match xml capability with
  | None => Throw TypeError
  | Some s =>
      match match_name s with
      | Some name => Ok name
      | None => Throw TypeError
      end
  end.

(** The callback of [capabilities.reduce] in [getUniqueCapabilities]. *)
Definition keep_unique (uniqueCaps : list Change) (currCap : Change)
  : result (list Change) :=
  isRepeated ← array_some (λ cap,
    n1 ← getCapabilityName cap;
    n2 ← getCapabilityName currCap;
    mret (str_eqb n1 n2)) uniqueCaps;
  mret (if isRepeated : bool then uniqueCaps else uniqueCaps ++ [currCap]).

Definition getUniqueCapabilities (capabilities : list Change) : result (list Change) :=
  array_reduce keep_unique capabilities [].

Definition compareCapabilities (firstCap secondCap : Change) : result Z :=
  firstCapName ← getCapabilityName firstCap;
  secondCapName ← getCapabilityName secondCap;
  if str_lt firstCapName secondCapName then mret (-1)%Z
  else if str_lt secondCapName firstCapName then mret 1%Z
  else mret 0%Z.

(** [getUniqueCapabilities(capabilities).sort(compareCapabilities)]. *)
Definition sort (capabilities : list Change) : result (list Change) :=
  array_sort compareCapabilities capabilities.

(** ** The capability prefixer *)

(** [/^\s*<Capability\s/.test(change.xml)]; [test] turns an undefined
    argument into the string ['undefined']. *)
Definition hasCapabilityChange (change : Change) : bool :=
  test_capability_open (default (js "undefined") (xml change)).

Definition uap_prefixed (s : jsstring) : jsstring :=
  replace_first (js "Capability") (js "uap:Capability") s.

(** The object literal [{ xml: ..., count: change.count, before: change.before }]. *)
Definition prefixed_change (change : Change) (s : jsstring) : Change :=
  {| target := None; parent := None; after := None; xmls := None;
     versions := None; deviceTarget := None;
     xml := Some (uap_prefixed s); count := count change; before := before change |}.

Module VariantA.
Section Prefixer.
(** [CapsNeedUapPrefix] is exported by [AppxManifest.js]. *)
Variable CapsNeedUapPrefix : list jsstring.

Definition createPrefixedCapabilityChange (change : Change) : result Change :=
  name ← getCapabilityName change;
  if bool_decide (name ∈ CapsNeedUapPrefix) then
    match xml change with
    | Some s => Ok (prefixed_change change s)
    | None => Throw TypeError
    end
  else Ok change.

Definition generateUapCapabilities (capabilities : list Change) : result (list Change) :=
  mapM createPrefixedCapabilityChange (filter (λ c, hasCapabilityChange c = true) capabilities).
End Prefixer.
End VariantA.

Module VariantB.
Definition createPrefixedCapabilityChange (change : Change) : result Change :=
  match xml change with
  | Some s => Ok (prefixed_change change s)
  | None => Throw TypeError
  end.

(** [Object.keys(o)] of an object used as a map. *)
Definition object_keys (o : gmap jsstring (list Change)) : list jsstring :=
  (map_to_list o).*1.

(** [munge.parents[selector]]; a selector out of [Object.keys] is a key. *)
Definition generateUapCapabilities (munge : Munge) : result Munge :=
  array_reduce (λ result selector,
    changes ← mapM createPrefixedCapabilityChange
      (filter (λ c, hasCapabilityChange c = true)
         (default [] (parents munge !! selector)));
    mret (mkMunge (<[selector := changes]> (parents result))))
    (object_keys (parents munge)) (mkMunge ∅).
End VariantB.

(** ** The manifest demultiplexer (the same code in both variants) *)

Definition WINDOWS10_MANIFEST : jsstring := js "package.windows10.appxmanifest".
Definition WINDOWS_MANIFEST : jsstring := js "package.windows.appxmanifest".
Definition PHONE_MANIFEST : jsstring := js "package.phone.appxmanifest".
Definition PACKAGE_MANIFEST : jsstring := js "package.appxmanifest".

(** An entry of [MANIFESTS] is a string or an array of strings. *)
Inductive manifest_entry :=
  | OneManifest (manifestFile : jsstring)
  | ManifestArray (manifestFiles : list jsstring).

(** [MANIFESTS], with the keys of each object in the order of [Object.keys]
    (the order they are written in: none is an array index). *)
Definition MANIFESTS : list (jsstring * list (jsstring * manifest_entry)) :=
  [ (js "windows",
      [ (js "8.1.0", OneManifest WINDOWS_MANIFEST);
        (js "10.0.0", OneManifest WINDOWS10_MANIFEST) ]);
    (js "phone",
      [ (js "8.1.0", OneManifest PHONE_MANIFEST);
        (js "10.0.0", OneManifest WINDOWS10_MANIFEST) ]);
    (js "all",
      [ (js "8.1.0", ManifestArray [WINDOWS_MANIFEST; PHONE_MANIFEST]);
        (js "10.0.0", OneManifest WINDOWS10_MANIFEST) ]) ].

(** [MANIFESTS[targetDeviceSet]]; the source reads it at one of the three
    keys only. *)
Fixpoint manifests_of (table : list (jsstring * list (jsstring * manifest_entry)))
    (targetDeviceSet : jsstring) : list (jsstring * manifest_entry) :=
  match table with
  | [] => []
  | (k, row) :: table' =>
      if str_eqb k targetDeviceSet then row else manifests_of table' targetDeviceSet
  end.

Definition createReplacement (manifestFile : jsstring) (originalChange : Change) : Change :=
  {| target := Some manifestFile;
     parent := parent originalChange;
     after := after originalChange;
     xmls := xmls originalChange;
     versions := versions originalChange;
     deviceTarget := deviceTarget originalChange;
     xml := None; count := None; before := None |}.

(** [typeof change.versions !== 'undefined' || typeof change.deviceTarget !== 'undefined']. *)
Definition has_qualifier (change : Change) : bool :=
  bool_decide (is_Some (versions change)) || bool_decide (is_Some (deviceTarget change)).

Section Demux.
(** [semver.satisfies(version, range)] of the semver package. *)
Variable satisfies : jsstring → jsstring → bool.

(** The device set a qualified change is resolved to. *)
Definition resolve_device (change : Change) : jsstring :=
  let targetDeviceSet := default (js "all") (deviceTarget change) in
  if bool_decide (targetDeviceSet ∈ [js "windows"; js "phone"; js "all"])
  then targetDeviceSet else js "all".

(** The changes that the body of [knownWindowsVersionsForTargetDeviceSet.forEach]
    pushes for one version. *)
Definition demux_version (change : Change) (targetDeviceSet winver : jsstring)
    (versionSpecificManifests : manifest_entry) : list Change :=
  if bool_decide (is_Some (versions change))
     && negb (satisfies winver (default [] (versions change)))
  then []
  else
    match versionSpecificManifests with
    | ManifestArray manifestFiles =>
        (λ manifestFile, createReplacement manifestFile change) <$> manifestFiles
    | OneManifest manifestFile => [createReplacement manifestFile change]
    end.

(** The changes that the body of [oldChanges.forEach] pushes for one change. *)
Definition demux_change (change : Change) : list Change :=
  if negb (bool_decide (target change = Some PACKAGE_MANIFEST)) then [change]
  else if negb (has_qualifier change) then [change]
  else
    let targetDeviceSet := resolve_device change in
    flat_map (λ '(winver, versionSpecificManifests),
                demux_version change targetDeviceSet winver versionSpecificManifests)
      (manifests_of MANIFESTS targetDeviceSet).

Definition demux (oldChanges : list Change) : list Change :=
  flat_map demux_change oldChanges.

(** The arguments of a call of the base class's
    [generate_plugin_config_munge]; an argument that is not passed is
    undefined. *)
Record BaseCall (Vars : Type) := mkBaseCall {
  base_changes : list Change;
  base_vars : Vars;
  base_edit_config_changes : option (list Change)
}.
Arguments base_changes {Vars} _.
Arguments base_vars {Vars} _.
Arguments base_edit_config_changes {Vars} _.

(** What one call does: the caller's [changes] array after the call (the
    edit-config changes are pushed onto it in place), and the call of the
    base method, whose result is returned as it is. In Variant B [Vars] is
    the pair of [plugin_id] and [vars]. *)
Record Outcome (Vars : Type) := mkOutcome {
  caller_changes : list Change;
  super_call : BaseCall Vars
}.
Arguments caller_changes {Vars} _.
Arguments super_call {Vars} _.

Definition generate_plugin_config_munge {Vars} (changes : list Change) (vars : Vars)
    (edit_config_changes : option (list Change)) : Outcome Vars :=
  let changes :=
    match edit_config_changes with
    | Some ecs => changes ++ ecs
    | None => changes
    end in
  if existsb has_qualifier changes then
    mkOutcome Vars changes (mkBaseCall Vars (demux changes) vars None)
  else
    mkOutcome Vars changes (mkBaseCall Vars changes vars edit_config_changes).
End Demux.

Arguments base_changes {Vars} _.
Arguments base_vars {Vars} _.
Arguments base_edit_config_changes {Vars} _.
Arguments caller_changes {Vars} _.
Arguments super_call {Vars} _.
Arguments mkBaseCall {Vars} _ _ _.
Arguments mkOutcome {Vars} _ _.

(** A model of [semver.satisfies] on the ranges that are one full version
    [x.y.z]: only that version satisfies the range. *)
Definition satisfies_exact (version range : jsstring) : bool := str_eqb version range.

Definition sample_change : Change :=
  {| target := Some PACKAGE_MANIFEST;
     parent := Some (js "/Package/Capabilities");
     after := None;
     xmls := Some [js "<Capability Name=" ++ [QUOTE] ++ js "internetClient" ++ [QUOTE] ++ js "/>"];
     versions := Some (js "10.0.0");
     deviceTarget := Some (js "all");
     xml := None; count := None; before := None |}.

(** [changes] with its [deviceTarget] replaced. *)
Definition with_deviceTarget (d : option jsstring) (c : Change) : Change :=
  {| target := target c; parent := parent c; after := after c; xmls := xmls c;
     versions := versions c; deviceTarget := d;
     xml := xml c; count := count c; before := before c |}.

(** The manifest files of a table entry. *)
Definition manifest_files (e : manifest_entry) : list jsstring :=
  match e with
  | OneManifest manifestFile => [manifestFile]
  | ManifestArray manifestFiles => manifestFiles
  end.

(** A change as the data model of the specification has it, with its fragment
    under [xml]. *)
Definition spec_change : Change :=
  {| target := Some PACKAGE_MANIFEST;
     parent := Some (js "/Package/Capabilities");
     after := None;
     xmls := None;
     versions := Some (js "10.0.0");
     deviceTarget := None;
     xml := Some (js "<Capability Name=" ++ [QUOTE] ++ js "internetClient" ++ [QUOTE] ++ js "/>");
     count := None; before := None |}.

Definition bogus_change : Change := with_deviceTarget (Some (js "bogus")) sample_change.

(** An edit-config change: [{ file, target, mode, xmls }], of which the model
    keeps [target] and [xmls]. *)
Definition edit_config_change : Change :=
  {| target := Some (js "/*/Identity");
     parent := None; after := None;
     xmls := Some [js "<Identity />"];
     versions := None; deviceTarget := None;
     xml := None; count := None; before := None |}.

(** ** What the regular expressions match, in words

    [name_match_at s w]: [/Name="(\w+)"/i] matches at the head of [s] with
    group [w]. *)
Definition name_match_at (s w : jsstring) : Prop :=
  ∃ nm post,
    s = nm ++ [QUOTE] ++ w ++ [QUOTE] ++ post
    ∧ canonicalize <$> nm = js "NAME="
    ∧ w ≠ []
    ∧ Forall (λ c, is_word c = true) w.

(** The pattern matches somewhere in [s]: [s] has a [Name="..."] attribute. *)
Definition has_name_attr (s : jsstring) : Prop :=
  ∃ pre rest w, s = pre ++ rest ∧ name_match_at rest w.

(** The xml of a change has a [Name="..."] attribute. *)
Definition named (c : Change) : Prop :=
  ∃ s, xml c = Some s ∧ has_name_attr s.

(** ** The deduplicator, in the words of its contract

    Two changes are the same capability when their derived names are equal;
    the change at index [i] is a first occurrence when no change before it is
    the same capability; the contract keeps the first occurrences, in input
    order. *)

Definition same_name (c c' : Change) : bool :=
  bool_decide (getCapabilityName c = getCapabilityName c').

Definition is_first_occurrence (cs : list Change) (i : nat) (c : Change) : bool :=
  forallb (λ c', negb (same_name c' c)) (take i cs).

Definition first_occurrences (cs : list Change) : list Change :=
  concat (imap (λ i c, if is_first_occurrence cs i c then [c] else []) cs).

(** ** The order of the sorter

    [name_le c1 c2]: both names are derived and the name of [c2] is not
    smaller than the name of [c1]. *)
Definition name_le (c1 c2 : Change) : Prop :=
  ∃ n1 n2, getCapabilityName c1 = Ok n1 ∧ getCapabilityName c2 = Ok n2
           ∧ str_lt n2 n1 = false.

(** [c'] is [c] prefixed: the xml of [c] opens a [Capability] element after
    white space, and [c'] has that xml with [uap:] before the element name, and
    the [count] and [before] of [c]. *)
Definition prefixed_of (c c' : Change) : Prop :=
  ∃ ws sp rest,
    xml c = Some (ws ++ js "<Capability" ++ sp :: rest)
    ∧ Forall (λ x, is_space x = true) ws ∧ is_space sp = true
    ∧ xml c' = Some (ws ++ js "<uap:Capability" ++ sp :: rest)
    ∧ count c' = count c ∧ before c' = before c.

(** ** Sample changes *)

(** The change [{ xml: '<Capability Name="name"/>', count: 1 }]. *)
Definition capability (name : string) : Change :=
  {| target := None; parent := None; after := None; xmls := None;
     versions := None; deviceTarget := None;
     xml := Some (js "<Capability Name=" ++ [QUOTE] ++ js name ++ [QUOTE] ++ js "/>");
     count := Some 1%Z; before := None |}.

(** A change with the fragment [s] and nothing else. *)
Definition fragment (s : string) : Change :=
  {| target := None; parent := None; after := None; xmls := None;
     versions := None; deviceTarget := None;
     xml := Some (js s); count := Some 1%Z; before := None |}.

(** A must-prefix set to run the prefixer of Variant A on. *)
Definition sample_CapsNeedUapPrefix : list jsstring :=
  [js "documentsLibrary"; js "picturesLibrary"; js "videosLibrary"; js "musicLibrary"].

(** ** The munger driver: [apply_file_munge] and [cloneObject] *)









Definition CAPS_SELECTOR : jsstring := js "/Package/Capabilities".

(** The arguments of a call of the base class's [apply_file_munge]. *)
Record ApplyCall := mkApplyCall {
  apply_file : jsstring;
  apply_munge : Munge;
  apply_remove : bool
}.

(** Variant A: the call of the base method that ends [apply_file_munge], or
    the error raised before it. [mungeCopy] is the munge as a value: a clone
    is equal to what it clones, and the caller's munge is not written to. *)
Module DriverA.
Section Apply.
Variable CapsNeedUapPrefix : list jsstring.

Definition apply_file_munge (file : jsstring) (munge : Munge) (remove : bool)
  : result ApplyCall :=
  let mungeCopy := munge in
  match parents mungeCopy !! CAPS_SELECTOR with
  | Some capabilities =>
      capabilities ←
        (if bool_decide (file = WINDOWS10_MANIFEST)
         then VariantA.generateUapCapabilities CapsNeedUapPrefix capabilities
         else Ok capabilities);
      capabilities ←
        (if negb remove
         then uniqueCaps ← getUniqueCapabilities capabilities; sort uniqueCaps
         else Ok capabilities);
      Ok (mkApplyCall file
            (mkMunge (<[CAPS_SELECTOR := capabilities]> (parents mungeCopy))) remove)
  | None => Ok (mkApplyCall file mungeCopy remove)
  end.
End Apply.
End DriverA.

(** Variant B: the calls of the base method that [apply_file_munge] makes, in
    order, and how it ends. *)
Module DriverB.
Definition apply_file_munge (file : jsstring) (munge : Munge) (remove : bool)
  : list ApplyCall * result unit :=
  let first := mkApplyCall file munge remove in
  if remove && bool_decide (file = js "package.windows10.appxmanifest") then
    match VariantB.generateUapCapabilities munge with
    | Ok uapCapabilitiesMunge =>
        ([first; mkApplyCall file uapCapabilitiesMunge remove], Ok ())
    | Throw e => ([first], Throw e)
    end
  else ([first], Ok ()).
End DriverB.

(** ** The order of the sorter, strict *)

Definition name_lt (c1 c2 : Change) : Prop :=
  ∃ n1 n2, getCapabilityName c1 = Ok n1 ∧ getCapabilityName c2 = Ok n2
           ∧ str_lt n1 n2 = true.

(** The change that Variant A's prefixer makes of a capability change. *)
Definition prefixed_A (CapsNeedUapPrefix : list jsstring) (c : Change) : Change :=
  match getCapabilityName c with
  | Ok name =>
      if bool_decide (name ∈ CapsNeedUapPrefix)
      then prefixed_change c (default [] (xml c)) else c
  | Throw _ => c
  end.

(** The list that Variant B's prefixer makes of the changes of a selector. *)
Definition prefixed_B (changes : list Change) : list Change :=
  (λ c, prefixed_change c (default [] (xml c)))
    <$> filter (λ c, hasCapabilityChange c = true) changes.

(** A munge with changes under two selectors, the capabilities out of order
    and one of them twice. *)
Definition sample_munge : Munge :=
  mkMunge (<[CAPS_SELECTOR := [capability "microphone"; capability "internetClient";
                               capability "microphone"]]>
             {[js "/Package/Applications" := [fragment "<Application />"]]}).


(** A change for the phone only, and a change for a version that no manifest
    is for. *)
Definition phone_change : Change :=
  mkChange (Some PACKAGE_MANIFEST) None None None None (Some (js "phone"))
    None None None.

Definition unsupported_change : Change :=
  mkChange (Some PACKAGE_MANIFEST) None None None (Some (js "9.0.0")) None
    None None None.

(** What the base method is called with when [sample_munge] is installed in
    the windows manifest. *)
Definition sample_call : ApplyCall :=
  mkApplyCall WINDOWS_MANIFEST
    (mkMunge (<[CAPS_SELECTOR := [capability "internetClient"; capability "microphone"]]>
                (parents sample_munge)))
    false.

(** ** [cordova/base64] of [windows8/cordova.js] *)

(** The operators [<<], [>>] and [&] work on 32-bit signed integers. *)
Definition int32 (z : Z) : Z := ((z + 2147483648) `mod` 4294967296 - 2147483648)%Z.
Definition shl32 (a n : Z) : Z := int32 (Z.shiftl (int32 a) n).
Definition sar32 (a n : Z) : Z := Z.shiftr (int32 a) n.
Definition and32 (a b : Z) : Z := Z.land (int32 a) (int32 b).

Definition b64_6bit : jsstring :=
  js "ABCDEFGHIJKLMNOPQRSTUVWXYZabcdefghijklmnopqrstuvwxyz0123456789+/".

(** [s[i]] as it is appended to a string: the character at [i], or the text
    of [undefined] past the end. *)
Definition char_at (s : jsstring) (i : Z) : jsstring :=
  match s !! Z.to_nat i with
  | Some c => [c]
  | None => js "undefined"
  end.

(** [b64_12bitTable()]: the array that the two loops fill in order. *)
Definition b64_12bitTable : list jsstring :=
  flat_map (λ i, (λ j, char_at b64_6bit (Z.of_nat i) ++ char_at b64_6bit (Z.of_nat j))
                   <$> seq 0 64)
    (seq 0 64).

(** [table[k]] as it is appended to a string. *)
Definition table_at (k : Z) : jsstring :=
  default (js "undefined") (b64_12bitTable !! Z.to_nat k).

(** The loop of [uint8ToBase64] over the bytes that are left, and the two
    branches after it. *)
Fixpoint uint8ToBase64_from (output : jsstring) (rawData : list Z) : jsstring :=
  match rawData with
  | b0 :: b1 :: b2 :: rest =>
      let segment := (shl32 b0 16 + shl32 b1 8 + b2)%Z in
      uint8ToBase64_from
        (output ++ table_at (sar32 segment 12) ++ table_at (and32 segment 4095)) rest
  | [b0; b1] =>
      let segment := (shl32 b0 16 + shl32 b1 8)%Z in
      output ++ table_at (sar32 segment 12)
        ++ char_at b64_6bit (sar32 (and32 segment 4095) 6) ++ js "="
  | [b0] =>
      let segment := shl32 b0 16 in
      output ++ table_at (sar32 segment 12) ++ js "=="
  | [] => output
  end.

Definition uint8ToBase64 (rawData : list Z) : jsstring := uint8ToBase64_from [] rawData.

(** An element of a [Uint8Array]. *)
Definition is_byte (b : Z) : Prop := (0 ≤ b < 256)%Z.

(** The place of a character in [b64_6bit]. *)
Definition b64_index (c : N) : Z :=
  if (65 <=? c) && (c <=? 90) then Z.of_N c - 65
  else if (97 <=? c) && (c <=? 122) then Z.of_N c - 71
  else if (48 <=? c) && (c <=? 57) then Z.of_N c + 4
  else if c =? 43 then 62
  else if c =? 47 then 63
  else (-1).

(** The character of [b64_6bit] at a place. *)
Definition b64_char (i : Z) : N := default 0 (b64_6bit !! Z.to_nat i).

(** The four characters of a 24-bit segment, six bits each. *)
Definition b64_quad (segment : Z) : list N :=
  [b64_char (segment / 4096 / 64); b64_char ((segment / 4096) `mod` 64);
   b64_char ((segment `mod` 4096) / 64); b64_char ((segment `mod` 4096) `mod` 64)]%Z.

(** ** Tactics *)

(** Case analysis on the comparisons of code units in the goal. *)
Ltac cases_N :=
  repeat match goal with
  | |- context [N.ltb ?x ?y] => destruct (N.ltb_spec x y)
  | |- context [N.eqb ?x ?y] => destruct (N.eqb_spec x y)
  | H : context [N.ltb ?x ?y] |- _ => destruct (N.ltb_spec x y)
  | H : context [N.eqb ?x ?y] |- _ => destruct (N.eqb_spec x y)
  end.


(** Linear arithmetic with divisions by constants. *)
Ltac div_lia := unfold is_byte in *; Z.div_mod_to_equations; lia.

(** * Properties *)

(** ** Strings and the regular expressions *)

Lemma strip_prefix_spec pat s rest :
  strip_prefix pat s = Some rest ↔ s = pat ++ rest.
Proof.
  revert s. induction pat as [|p pat IH]; intros s; simpl.
  - split; congruence.
  - destruct s as [|c s]; [split; discriminate|].
    destruct (N.eqb_spec p c) as [->|Hne].
    + rewrite IH. split; congruence.
    + split; [discriminate|]. intros [= ? ?]. done.
Qed.

Lemma strip_prefix_ci_spec pat s rest :
  strip_prefix_ci pat s = Some rest
  ↔ ∃ nm, s = nm ++ rest ∧ canonicalize <$> nm = canonicalize <$> pat.
Proof.
  revert s. induction pat as [|p pat IH]; intros s; simpl.
  - split.
    + intros [= ->]. by exists [].
    + intros (nm & -> & Hnm). by apply fmap_nil_inv in Hnm as ->.
  - destruct s as [|c s].
    { split; [discriminate|]. intros ([|??] & ? & ?); discriminate. }
    destruct (N.eqb_spec (canonicalize p) (canonicalize c)) as [E|Hne].
    + rewrite IH. split.
      * intros (nm & -> & Hnm). exists (c :: nm). split; [done|].
        change (canonicalize c :: (canonicalize <$> nm)
                = canonicalize p :: (canonicalize <$> pat)).
        by rewrite Hnm, E.
      * intros ([|c' nm] & Hs & Hnm); [discriminate|].
        injection Hs as -> ->. injection Hnm as _ Hnm. eauto.
    + split; [discriminate|].
      intros ([|c' nm] & Hs & Hnm); [discriminate|].
      injection Hs as -> ->. injection Hnm as Hc _. congruence.
Qed.

Lemma span_word_spec s w r :
  span_word s = (w, r) →
  s = w ++ r ∧ Forall (λ c, is_word c = true) w
  ∧ match r with [] => True | c :: _ => is_word c = false end.
Proof.
  revert w r. induction s as [|c s IH]; intros w r; simpl.
  - intros [= <- <-]. done.
  - destruct (is_word c) eqn:Hc.
    + destruct (span_word s) as [w' r'] eqn:E. intros [= <- <-].
      destruct (IH _ _ eq_refl) as (-> & Hw & Hr). split; [done|].
      split; [|done]. by constructor.
    + intros [= <- <-]. done.
Qed.

Lemma span_word_app w r :
  Forall (λ c, is_word c = true) w →
  match r with [] => True | c :: _ => is_word c = false end →
  span_word (w ++ r) = (w, r).
Proof.
  intros Hw Hr. induction Hw as [|c w Hc Hw IH]; simpl.
  - destruct r as [|c r]; [done|]. simpl. by rewrite Hr.
  - by rewrite Hc, IH.
Qed.

Lemma canonicalize_quote c : canonicalize c = QUOTE → c = QUOTE.
Proof.
  unfold canonicalize, QUOTE.
  destruct (N.leb_spec 97 c), (N.leb_spec c 122); simpl; lia.
Qed.

Lemma NAME_ATTR_canonical :
  canonicalize <$> NAME_ATTR = js "NAME=" ++ [QUOTE]
  ∧ js "NAME=" = [78; 65; 77; 69; 61].
Proof. split; reflexivity. Qed.

Lemma strip_name_attr_spec s rest :
  strip_prefix_ci NAME_ATTR s = Some rest
  ↔ ∃ nm, s = nm ++ [QUOTE] ++ rest ∧ canonicalize <$> nm = js "NAME=".
Proof.
  rewrite strip_prefix_ci_spec.
  destruct NAME_ATTR_canonical as [E1 E2]. split.
  - intros (nm & -> & Hnm). rewrite E1, E2 in Hnm. rewrite E2.
    destruct nm as [|c1 [|c2 [|c3 [|c4 [|c5 [|c6 [|]]]]]]]; try discriminate.
    injection Hnm as H1 H2 H3 H4 H5 H6.
    apply canonicalize_quote in H6 as ->.
    exists [c1; c2; c3; c4; c5]. split; [done|].
    rewrite !fmap_cons, H1, H2, H3, H4, H5. done.
  - intros (nm & -> & Hnm). exists (nm ++ [QUOTE]). split.
    + by rewrite <- app_assoc.
    + rewrite fmap_app, Hnm, E1. done.
Qed.

Lemma match_name_at_spec s w :
  match_name_at s = Some w ↔ name_match_at s w.
Proof.
  unfold match_name_at, name_match_at. split.
  - destruct (strip_prefix_ci NAME_ATTR s) as [rest|] eqn:E; [|discriminate].
    simpl. apply strip_name_attr_spec in E as (nm & -> & Hnm).
    destruct (span_word rest) as [w' r] eqn:Es.
    apply span_word_spec in Es as (-> & Hw & Hr).
    destruct w' as [|c w']; [discriminate|]. destruct r as [|q r]; [discriminate|].
    destruct (N.eqb_spec q QUOTE) as [->|]; [|discriminate].
    intros [= <-]. by exists nm, r.
  - intros (nm & post & -> & Hnm & Hne & Hw).
    assert (E : strip_prefix_ci NAME_ATTR (nm ++ [QUOTE] ++ w ++ [QUOTE] ++ post)
                = Some (w ++ [QUOTE] ++ post)).
    { apply strip_name_attr_spec. eauto. }
    rewrite E. simpl. rewrite span_word_app by done.
    destruct w; [done|]. done.
Qed.

Lemma match_name_unfold s :
  match_name s
  = match match_name_at s with
    | Some w => Some w
    | None => match s with
              | [] => None
              | _ :: s' => match_name s'
              end
    end.
Proof. by destruct s. Qed.

Lemma match_name_Some s w :
  match_name s = Some w
  ↔ ∃ pre rest,
      s = pre ++ rest ∧ name_match_at rest w
      ∧ ∀ pre' rest' w', s = pre' ++ rest' → (length pre' < length pre)%nat →
                         ¬ name_match_at rest' w'.
Proof.
  induction s as [|c s IH]; rewrite match_name_unfold.
  - change (match_name_at []) with (@None jsstring).
    split; [discriminate|]. intros (pre & rest & Hs & Hm & _).
    symmetry in Hs. apply app_eq_nil in Hs as [-> ->].
    apply match_name_at_spec in Hm. discriminate.
  - destruct (match_name_at (c :: s)) as [w0|] eqn:E.
    + split.
      * intros [= ->]. exists [], (c :: s). apply match_name_at_spec in E.
        split; [done|]. split; [done|]. simpl. intros; lia.
      * intros (pre & rest & Hs & Hm & Hleft).
        destruct pre as [|c' pre].
        -- simpl in Hs. subst rest. apply match_name_at_spec in Hm. congruence.
        -- exfalso. apply (Hleft [] (c :: s) w0); [done|simpl; lia|].
           by apply match_name_at_spec.
    + rewrite IH. split.
      * intros (pre & rest & -> & Hm & Hleft). exists (c :: pre), rest.
        split; [done|]. split; [done|].
        intros pre' rest' w' Hs Hlen. destruct pre' as [|c' pre'].
        -- simpl in Hs. subst rest'. intros Hm'%match_name_at_spec. congruence.
        -- injection Hs as -> Hs. apply (Hleft _ _ _ Hs). simpl in Hlen. lia.
      * intros (pre & rest & Hs & Hm & Hleft). destruct pre as [|c' pre].
        -- simpl in Hs. subst rest. apply match_name_at_spec in Hm. congruence.
        -- injection Hs as -> ->. exists pre, rest. split; [done|]. split; [done|].
           intros pre' rest' w' Hs Hlen.
           apply (Hleft (c' :: pre') rest' w'); [by rewrite Hs|simpl; lia].
Qed.

Lemma match_name_is_Some s : is_Some (match_name s) ↔ has_name_attr s.
Proof.
  split.
  - intros [w (pre & rest & -> & Hm & _)%match_name_Some]. by exists pre, rest, w.
  - intros (pre & rest & w & -> & Hm).
    induction pre as [|c pre IH]; rewrite match_name_unfold.
    + apply match_name_at_spec in Hm. simpl. rewrite Hm. by eexists.
    + simpl. destruct (match_name_at (c :: pre ++ rest)); [by eexists|done].
Qed.

Lemma match_name_None s : match_name s = None ↔ ¬ has_name_attr s.
Proof. rewrite <- match_name_is_Some, eq_None_not_Some. done. Qed.

(** ** The manifest demultiplexer *)

Lemma demux_app sat l1 l2 : demux sat (l1 ++ l2) = demux sat l1 ++ demux sat l2.
Proof. unfold demux. apply flat_map_app. Qed.

Lemma base_changes_demux {Vars} sat changes (vars : Vars) ecs :
  existsb has_qualifier (changes ++ default [] ecs) = true →
  super_call (generate_plugin_config_munge sat changes vars ecs)
  = mkBaseCall (demux sat (changes ++ default [] ecs)) vars None.
Proof.
  intros H. unfold generate_plugin_config_munge.
  destruct ecs as [ecs|]; simpl in *; rewrite ?app_nil_r in *; by rewrite H.
Qed.

(** C1. A change that targets [package.appxmanifest] with [deviceTarget]
    [all] and [versions] [10.0.0] is demultiplexed into exactly one change,
    which targets [package.windows10.appxmanifest], and into none that targets
    [package.windows.appxmanifest] or [package.phone.appxmanifest]; that is
    also its share of the changes handed to the base method, wherever it is
    in the list. Of [semver.satisfies] it takes that 8.1.0 does not satisfy
    the range 10.0.0 and that 10.0.0 does. *)
Theorem demux_coverage (sat : jsstring → jsstring → bool) (c : Change) :
  sat (js "8.1.0") (js "10.0.0") = false →
  sat (js "10.0.0") (js "10.0.0") = true →
  target c = Some PACKAGE_MANIFEST →
  deviceTarget c = Some (js "all") →
  versions c = Some (js "10.0.0") →
  let out := demux_change sat c in
  out = [createReplacement WINDOWS10_MANIFEST c]
  ∧ length (filter (λ x, target x = Some WINDOWS10_MANIFEST) out) = 1%nat
  ∧ filter (λ x, target x = Some WINDOWS_MANIFEST) out = []
  ∧ filter (λ x, target x = Some PHONE_MANIFEST) out = []
  ∧ ∀ (Vars : Type) (vars : Vars) pre post ecs,
      base_changes (super_call
        (generate_plugin_config_munge sat (pre ++ c :: post) vars ecs))
      = demux sat pre ++ out ++ demux sat (post ++ default [] ecs).
Proof.
  intros H8 H10 Ht Hd Hv out.
  assert (Hq : has_qualifier c = true).
  { unfold has_qualifier. rewrite Hv. done. }
  assert (Hout : out = [createReplacement WINDOWS10_MANIFEST c]).
  { subst out. unfold demux_change, resolve_device.
    rewrite Ht, Hq, Hd. simpl.
    unfold demux_version. rewrite Hv. simpl. rewrite H8, H10. done. }
  split; [done|]. rewrite Hout.
  split; [done|]. split; [done|]. split; [done|].
  intros Vars vars pre post ecs.
  rewrite base_changes_demux.
  - simpl. rewrite <- app_assoc. rewrite demux_app. simpl.
    fold (demux sat (post ++ default [] ecs)). fold out. by rewrite Hout.
  - rewrite <- app_assoc. simpl. rewrite existsb_app. simpl. rewrite Hq.
    by rewrite orb_true_r.
Qed.
Lemma in_demux_version sat c d winver e c' :
  c' ∈ demux_version sat c d winver e →
  ∃ manifestFile, manifestFile ∈ manifest_files e ∧ c' = createReplacement manifestFile c.
Proof.
  unfold demux_version.
  destruct (bool_decide _ && negb _); [by intros ?%elem_of_nil|].
  destruct e as [f|fs]; simpl.
  - intros ->%list_elem_of_singleton. exists f. split; [left|done].
  - intros (f & -> & Hf)%list_elem_of_fmap. eauto.
Qed.

Lemma demux_change_qualified sat c :
  target c = Some PACKAGE_MANIFEST → has_qualifier c = true →
  demux_change sat c
  = flat_map (λ '(winver, e), demux_version sat c (resolve_device c) winver e)
      (manifests_of MANIFESTS (resolve_device c)).
Proof. intros Ht Hq. unfold demux_change. by rewrite Ht, Hq. Qed.

(** C2, as the code has it. A replacement of a demultiplexed change has for
    [target] a manifest file of the table entry of the resolved device set,
    and the [parent], [after], [xmls], [versions] and [deviceTarget] of the
    original; it has no other field: an [xml], [count] or [before] of the
    original is not copied. *)
Theorem demux_replacement_fields sat (c c' : Change) :
  target c = Some PACKAGE_MANIFEST →
  has_qualifier c = true →
  c' ∈ demux_change sat c →
  (∃ winver e manifestFile,
      (winver, e) ∈ manifests_of MANIFESTS (resolve_device c)
      ∧ manifestFile ∈ manifest_files e
      ∧ target c' = Some manifestFile)
  ∧ parent c' = parent c ∧ after c' = after c ∧ xmls c' = xmls c
  ∧ versions c' = versions c ∧ deviceTarget c' = deviceTarget c
  ∧ xml c' = None ∧ count c' = None ∧ before c' = None.
Proof.
  intros Ht Hq. rewrite demux_change_qualified by done.
  rewrite list_elem_of_In, in_flat_map.
  intros ([winver e] & Hin & Hc').
  change (In c' (demux_version sat c (resolve_device c) winver e)) in Hc'.
  rewrite <- list_elem_of_In in Hin. rewrite <- list_elem_of_In in Hc'.
  apply in_demux_version in Hc' as (f & Hf & ->).
  split; [|done]. by exists winver, e, f.
Qed.

(** The claim C2 as it is written fails on a change that carries its fragment
    under [xml]: the replacement has no [xml]. *)
Lemma demux_drops_xml :
  target spec_change = Some PACKAGE_MANIFEST
  ∧ has_qualifier spec_change = true
  ∧ ∃ c', c' ∈ demux_change satisfies_exact spec_change
          ∧ is_Some (xml spec_change)
          ∧ xml c' ≠ xml spec_change.
Proof.
  split; [done|]. split; [done|].
  exists (createReplacement WINDOWS10_MANIFEST spec_change).
  split; [vm_compute; left|]. split; [by eexists|]. vm_compute. discriminate.
Qed.

Lemma resolve_device_fallback c :
  deviceTarget c ∉ [Some (js "windows"); Some (js "phone"); Some (js "all")] →
  resolve_device c = js "all".
Proof.
  intros Hd. unfold resolve_device.
  destruct (deviceTarget c) as [d|]; [|done]. simpl.
  case_bool_decide as Hin; [|done].
  exfalso. apply Hd.
  apply list_elem_of_In in Hin. apply list_elem_of_In. simpl in *.
  destruct Hin as [<-|[<-|[<-|[]]]]; auto.
Qed.

Lemma demux_version_deviceTarget sat c d d' winver e :
  demux_version sat c d winver e
  = with_deviceTarget (deviceTarget c)
      <$> demux_version sat (with_deviceTarget (Some (js "all")) c) d' winver e.
Proof.
  unfold demux_version. simpl.
  destruct (bool_decide _ && negb _); [done|].
  destruct e as [f|fs]; simpl; [done|].
  rewrite <- list_fmap_compose. by apply list_fmap_ext.
Qed.

Lemma fmap_flat_map {A B C} (f : B → C) (g : A → list B) (l : list A) :
  f <$> flat_map g l = flat_map (λ x, f <$> g x) l.
Proof. induction l as [|x l IH]; simpl; [done|]. by rewrite fmap_app, IH. Qed.

(** C7, as the code has it. A qualified change whose [deviceTarget] is none
    of [windows], [phone], [all] is demultiplexed as the same change with
    [deviceTarget] [all] is, to the same manifest files in the same order,
    but for the [deviceTarget] of the replacements, which is the one of the
    original: the value that does not resolve is kept, not [all]. *)
Theorem demux_fallback sat (c : Change) :
  target c = Some PACKAGE_MANIFEST →
  has_qualifier c = true →
  deviceTarget c ∉ [Some (js "windows"); Some (js "phone"); Some (js "all")] →
  let c_all := with_deviceTarget (Some (js "all")) c in
  demux_change sat c
  = with_deviceTarget (deviceTarget c) <$> demux_change sat c_all
  ∧ target <$> demux_change sat c = target <$> demux_change sat c_all.
Proof.
  intros Ht Hq Hd c_all.
  assert (E : demux_change sat c
              = with_deviceTarget (deviceTarget c) <$> demux_change sat c_all).
  { rewrite !demux_change_qualified; try done.
    2:{ unfold has_qualifier. simpl. apply orb_true_r. }
    rewrite (resolve_device_fallback c) by done.
    change (resolve_device c_all) with (js "all").
    rewrite fmap_flat_map. apply flat_map_ext. intros [winver e].
    apply demux_version_deviceTarget. }
  split; [done|]. rewrite E, <- list_fmap_compose. by apply list_fmap_ext.
Qed.

(** The claim C7 as it is written fails: the replacements of a change with
    [deviceTarget] [bogus] are not those of the change with [all], they carry
    [bogus]. *)
Lemma demux_bogus_differs :
  target bogus_change = Some PACKAGE_MANIFEST
  ∧ has_qualifier bogus_change = true
  ∧ (deviceTarget bogus_change
      ∉ [Some (js "windows"); Some (js "phone"); Some (js "all")])
  ∧ (demux_change satisfies_exact bogus_change
     ≠ demux_change satisfies_exact (with_deviceTarget (Some (js "all")) bogus_change)).
Proof.
  split; [done|]. split; [done|]. split.
  - intros H. apply list_elem_of_In in H. vm_compute in H.
    destruct H as [H|[H|[H|[]]]]; discriminate.
  - vm_compute. discriminate.
Qed.

(** ** The call of the base method *)

Lemma generate_plugin_config_munge_plain {Vars} sat changes (vars : Vars) ecs :
  existsb has_qualifier (changes ++ default [] ecs) = false →
  super_call (generate_plugin_config_munge sat changes vars ecs)
  = mkBaseCall (changes ++ default [] ecs) vars ecs.
Proof.
  intros H. unfold generate_plugin_config_munge.
  destruct ecs as [ecs|]; simpl in *; rewrite ?app_nil_r in *; by rewrite H.
Qed.

Lemma edit_config_changes_twice {Vars} sat changes (vars : Vars) ecs e :
  existsb has_qualifier (changes ++ ecs) = false →
  e ∈ ecs →
  let call := super_call (generate_plugin_config_munge sat changes vars (Some ecs)) in
  e ∈ base_changes call ∧ base_edit_config_changes call = Some ecs.
Proof.
  intros H He call. subst call.
  rewrite generate_plugin_config_munge_plain by done. simpl.
  split; [|done]. apply elem_of_app. by right.
Qed.

(** The order of strings is a strict total order. *)

Lemma str_lt_asym a b : str_lt a b = true → str_lt b a = false.
Proof.
  revert b. induction a as [|x a IH]; intros [|y b]; simpl; try done.
  cases_N; try done; try lia. apply IH.
Qed.

Lemma str_le_trans a b c :
  str_lt b a = false → str_lt c b = false → str_lt c a = false.
Proof.
  revert b c. induction a as [|x a IH]; intros [|y b] [|z c]; simpl; try done.
  cases_N; try done; try lia. apply IH.
Qed.

Lemma str_le_antisym a b : str_lt a b = false → str_lt b a = false → a = b.
Proof.
  revert b. induction a as [|x a IH]; intros [|y b]; simpl; try done.
  cases_N; try done; try lia. intros ??. subst. f_equal. by apply IH.
Qed.

(** ** Capability names *)

Lemma getCapabilityName_Ok c w :
  getCapabilityName c = Ok w ↔ ∃ s, xml c = Some s ∧ match_name s = Some w.
Proof.
  unfold getCapabilityName. destruct (xml c) as [s|].
  - destruct (match_name s) as [w'|] eqn:E.
    + split; [intros [= ->]; eauto|]. intros (? & [= <-] & ?). congruence.
    + split; [discriminate|]. intros (? & [= <-] & ?). congruence.
  - split; [discriminate|]. intros (? & ? & ?). discriminate.
Qed.

Lemma getCapabilityName_named c : named c ↔ ∃ w, getCapabilityName c = Ok w.
Proof.
  unfold named. split.
  - intros (s & Hs & [w Hw]%match_name_is_Some). exists w.
    apply getCapabilityName_Ok. eauto.
  - intros (w & (s & Hs & Hw)%getCapabilityName_Ok). exists s. split; [done|].
    apply match_name_is_Some. eauto.
Qed.

Lemma getCapabilityName_raises c : raises (getCapabilityName c) ↔ ¬ named c.
Proof.
  rewrite getCapabilityName_named. unfold raises.
  destruct (getCapabilityName c) as [w|e].
  - split; [intros [? ?]; discriminate|]. intros H. destruct H. eauto.
  - split; [|eauto]. intros _ [? ?]. discriminate.
Qed.

(** ** The deduplicator *)

Lemma array_reduce_app {A B} (f : A → B → result A) l1 l2 a :
  array_reduce f (l1 ++ l2) a = (a' ← array_reduce f l1 a; array_reduce f l2 a').
Proof.
  revert a. induction l1 as [|x l1 IH]; intros a; simpl; [done|].
  destruct (f a x) as [a'|e]; simpl; [apply IH|done].
Qed.

Lemma array_some_same_name x acc :
  Forall named acc → named x →
  array_some (λ cap, n1 ← getCapabilityName cap;
                     n2 ← getCapabilityName x;
                     mret (str_eqb n1 n2)) acc
  = Ok (existsb (λ c, same_name c x) acc).
Proof.
  intros Hacc [wx Hx]%getCapabilityName_named.
  induction Hacc as [|c acc [wc Hc]%getCapabilityName_named _ IH]; simpl; [done|].
  unfold same_name at 1. rewrite Hc, Hx. simpl. unfold str_eqb.
  destruct (decide (wc = wx)) as [->|Hne].
  - rewrite !bool_decide_eq_true_2; done.
  - rewrite !bool_decide_eq_false_2; [|congruence|done].
    simpl. rewrite Hx in IH. exact IH.
Qed.

Lemma first_occurrences_snoc l x :
  first_occurrences (l ++ [x])
  = first_occurrences l ++ (if existsb (λ c, same_name c x) l then [] else [x]).
Proof.
  unfold first_occurrences. rewrite imap_app, concat_app. f_equal.
  - f_equal. apply imap_ext. intros i c Hi. unfold is_first_occurrence.
    rewrite take_app_le; [done|]. apply lookup_lt_Some in Hi. lia.
  - simpl. rewrite app_nil_r. unfold is_first_occurrence.
    rewrite Nat.add_0_r, take_app_length.
    assert (E : forallb (λ c', negb (same_name c' x)) l
                = negb (existsb (λ c, same_name c x) l)).
    { induction l as [|c l IH]; simpl; [done|]. rewrite IH.
      by destruct (same_name c x), (existsb _ l). }
    rewrite E. by destruct (existsb _ l).
Qed.

Lemma existsb_same_name x l :
  existsb (λ c, same_name c x) l = true
  ↔ getCapabilityName x ∈ getCapabilityName <$> l.
Proof.
  rewrite existsb_exists, list_elem_of_fmap. unfold same_name. split.
  - intros (c & Hc%list_elem_of_In & E%bool_decide_eq_true). eauto.
  - intros (c & E & Hc%list_elem_of_In). exists c. split; [done|].
    by apply bool_decide_eq_true.
Qed.

Lemma first_occurrences_sublist l : first_occurrences l `sublist_of` l.
Proof.
  induction l as [|x l IH] using rev_ind; [done|].
  rewrite first_occurrences_snoc. apply sublist_app; [done|].
  destruct (existsb _ l); [apply sublist_nil_l|done].
Qed.

Lemma first_occurrences_names l n :
  n ∈ getCapabilityName <$> first_occurrences l ↔ n ∈ getCapabilityName <$> l.
Proof.
  induction l as [|x l IH] using rev_ind; [done|].
  rewrite first_occurrences_snoc, !fmap_app, !elem_of_app, IH.
  destruct (existsb _ l) eqn:E; [|done].
  apply existsb_same_name in E. simpl.
  rewrite list_elem_of_singleton, elem_of_nil. split; [tauto|].
  intros [?| ->]; auto.
Qed.

Lemma first_occurrences_NoDup l : NoDup (getCapabilityName <$> first_occurrences l).
Proof.
  induction l as [|x l IH] using rev_ind; [constructor|].
  rewrite first_occurrences_snoc, fmap_app.
  destruct (existsb _ l) eqn:E; simpl; [by rewrite app_nil_r|].
  apply NoDup_app. split; [done|]. split; [|apply NoDup_singleton].
  intros n Hn ->%list_elem_of_singleton.
  rewrite first_occurrences_names, <- existsb_same_name in Hn. congruence.
Qed.

Lemma first_occurrences_id l :
  NoDup (getCapabilityName <$> l) → first_occurrences l = l.
Proof.
  induction l as [|x l IH] using rev_ind; [done|].
  rewrite fmap_app. intros (Hl & Hx & _)%NoDup_app.
  rewrite first_occurrences_snoc, IH by done. f_equal.
  destruct (existsb _ l) eqn:E; [|done].
  apply existsb_same_name in E. exfalso. apply (Hx _ E). left.
Qed.

Lemma getUniqueCapabilities_named cs :
  Forall named cs → getUniqueCapabilities cs = Ok (first_occurrences cs).
Proof.
  unfold getUniqueCapabilities.
  induction cs as [|x l IH] using rev_ind; [done|].
  intros [Hl Hx]%Forall_app. rewrite Forall_singleton in Hx.
  rewrite array_reduce_app, IH by done. simpl. unfold keep_unique.
  rewrite array_some_same_name; [| |done].
  2:{ rewrite Forall_forall in Hl. apply Forall_forall. intros c Hc.
      apply Hl. eapply elem_of_sublist, first_occurrences_sublist. done. }
  simpl. rewrite first_occurrences_snoc. f_equal.
  assert (E : existsb (λ c, same_name c x) (first_occurrences l)
              = existsb (λ c, same_name c x) l).
  { apply eq_true_iff_eq. rewrite !existsb_same_name. apply first_occurrences_names. }
  rewrite E. destruct (existsb _ l); [by rewrite app_nil_r|done].
Qed.

(** With a change already kept, one more step of the reduction evaluates the
    name of the first kept change and the name of the current one. *)
Lemma keep_unique_Ok a acc x r :
  keep_unique (a :: acc) x = Ok r →
  named a ∧ named x ∧ ∃ a' acc', r = a' :: acc'.
Proof.
  unfold keep_unique. simpl. rewrite !getCapabilityName_named.
  destruct (getCapabilityName a) as [wa|]; [|discriminate]. simpl.
  destruct (getCapabilityName x) as [wx|]; [|discriminate]. simpl.
  intros H. split; [eauto|]. split; [eauto|].
  destruct (str_eqb wa wx); simpl in H.
  - injection H as <-. eauto.
  - destruct (array_some _ acc) as [[]|]; simpl in H; [| |discriminate];
      injection H as <-; eauto.
Qed.

Lemma keep_unique_reduce_named l a acc u :
  array_reduce keep_unique l (a :: acc) = Ok u →
  Forall named l ∧ (l ≠ [] → named a).
Proof.
  revert a acc. induction l as [|x l IH]; intros a acc; [done|].
  cbn [array_reduce].
  destruct (keep_unique (a :: acc) x) as [r|] eqn:E; [|discriminate].
  apply keep_unique_Ok in E as (Ha & Hx & a' & acc' & ->).
  simpl. intros [Hl _]%IH. split; [by constructor|done].
Qed.

Lemma getUniqueCapabilities_Ok_named cs u :
  getUniqueCapabilities cs = Ok u → (2 ≤ length cs)%nat → Forall named cs.
Proof.
  destruct cs as [|x [|y l]]; simpl; [lia..|]. intros H _.
  change (array_reduce keep_unique (y :: l) [x] = Ok u) in H.
  apply keep_unique_reduce_named in H as [Hl Hx].
  constructor; [by apply Hx|done].
Qed.

(** C4. On changes that all have a [Name] attribute, the deduplicator returns
    the first occurrence of each derived capability name, in input order: the
    changes with no same-named change before them. What it returns is a
    sublist of the input, no two of its changes have the same name, and every
    name of the input is still there. *)
Theorem getUniqueCapabilities_first_occurrences (cs : list Change) :
  Forall named cs →
  getUniqueCapabilities cs = Ok (first_occurrences cs)
  ∧ first_occurrences cs `sublist_of` cs
  ∧ NoDup (getCapabilityName <$> first_occurrences cs)
  ∧ ∀ c, c ∈ cs →
      ∃ c', c' ∈ first_occurrences cs ∧ getCapabilityName c' = getCapabilityName c.
Proof.
  intros Hcs. split; [by apply getUniqueCapabilities_named|].
  split; [apply first_occurrences_sublist|].
  split; [apply first_occurrences_NoDup|].
  intros c Hc.
  assert (H : getCapabilityName c ∈ getCapabilityName <$> first_occurrences cs).
  { apply first_occurrences_names, list_elem_of_fmap. eauto. }
  apply list_elem_of_fmap in H as (c' & E & Hc'). eauto.
Qed.

(** C5. Deduplication is idempotent on changes that all have a [Name]
    attribute: it succeeds, and deduplicating its result gives the result
    back. *)
Theorem getUniqueCapabilities_idempotent (cs : list Change) :
  Forall named cs →
  ∃ u, getUniqueCapabilities cs = Ok u ∧ getUniqueCapabilities u = Ok u.
Proof.
  intros Hcs. exists (first_occurrences cs).
  split; [by apply getUniqueCapabilities_named|].
  rewrite getUniqueCapabilities_named.
  - f_equal. apply first_occurrences_id, first_occurrences_NoDup.
  - rewrite Forall_forall in Hcs. apply Forall_forall. intros c Hc.
    apply Hcs. eapply elem_of_sublist, first_occurrences_sublist. done.
Qed.

(** Whatever the changes, deduplicating twice is deduplicating once, errors
    included. *)
Lemma getUniqueCapabilities_idempotent_bind (cs : list Change) :
  (getUniqueCapabilities cs ≫= getUniqueCapabilities) = getUniqueCapabilities cs.
Proof.
  destruct (getUniqueCapabilities cs) as [u|e] eqn:E; [|done]. simpl.
  destruct (decide (2 ≤ length cs)%nat) as [Hlen|Hlen].
  - pose proof (getUniqueCapabilities_Ok_named _ _ E Hlen) as Hcs.
    rewrite getUniqueCapabilities_named in E by done. injection E as <-.
    rewrite getUniqueCapabilities_named.
    + f_equal. apply first_occurrences_id, first_occurrences_NoDup.
    + rewrite Forall_forall in Hcs. apply Forall_forall. intros c Hc.
      apply Hcs. eapply elem_of_sublist, first_occurrences_sublist. done.
  - destruct cs as [|x [|y l]]; simpl in Hlen; [| |lia].
    + by injection E as <-.
    + by injection E as <-.
Qed.

(** ** The sorter *)

Section ArraySort.
Context {A : Type} (comparefn : A → A → result Z).

Lemma sort_insert_perm x l s :
  sort_insert comparefn x l = Ok s → s ≡ₚ x :: l.
Proof.
  revert s. induction l as [|y l IH]; intros s; simpl.
  - by intros [= <-].
  - destruct (comparefn x y) as [order|]; [|discriminate]. simpl.
    destruct (order <=? 0)%Z; [by intros [= <-]|].
    destruct (sort_insert comparefn x l) as [r|]; [|discriminate]. simpl.
    intros [= <-]. rewrite (IH r eq_refl). apply Permutation_swap.
Qed.

Lemma array_sort_perm l s : array_sort comparefn l = Ok s → s ≡ₚ l.
Proof.
  revert s. induction l as [|x l IH]; intros s; simpl.
  - by intros [= <-].
  - destruct (array_sort comparefn l) as [s'|]; [|discriminate]. simpl.
    intros ->%sort_insert_perm. by rewrite (IH s' eq_refl).
Qed.
End ArraySort.

Lemma compareCapabilities_Ok x y order :
  compareCapabilities x y = Ok order →
  named x ∧ named y
  ∧ if (order <=? 0)%Z then name_le x y else name_le y x.
Proof.
  unfold compareCapabilities, name_le. rewrite !getCapabilityName_named.
  destruct (getCapabilityName x) as [n1|]; [|discriminate]. simpl.
  destruct (getCapabilityName y) as [n2|]; [|discriminate]. simpl.
  intros H. split; [eauto|]. split; [eauto|].
  destruct (str_lt n1 n2) eqn:E1.
  - injection H as <-. simpl. exists n1, n2. by rewrite (str_lt_asym _ _ E1).
  - destruct (str_lt n2 n1) eqn:E2; injection H as <-; simpl.
    + by exists n2, n1.
    + by exists n1, n2.
Qed.

Lemma compareCapabilities_named x y :
  named x → named y → ∃ order, compareCapabilities x y = Ok order.
Proof.
  intros [n1 H1]%getCapabilityName_named [n2 H2]%getCapabilityName_named.
  unfold compareCapabilities. rewrite H1, H2. simpl.
  destruct (str_lt n1 n2); [by eexists|]. destruct (str_lt n2 n1); by eexists.
Qed.

Lemma name_le_trans : Transitive name_le.
Proof.
  intros x y z (n1 & n2 & H1 & H2 & H12) (n2' & n3 & H2' & H3 & H23).
  assert (n2' = n2) as -> by congruence.
  exists n1, n3. split; [done|]. split; [done|]. by eapply str_le_trans.
Qed.

Lemma sort_insert_sorted x l :
  named x → Forall named l → StronglySorted name_le l →
  ∃ s, sort_insert compareCapabilities x l = Ok s ∧ StronglySorted name_le s.
Proof.
  intros Hx Hl Hs. induction Hs as [|y l Hs IH Hy]; simpl.
  - eexists. split; [done|]. repeat constructor.
  - apply Forall_cons in Hl as [Hny Hl].
    destruct (compareCapabilities_named x y Hx Hny) as [order E].
    rewrite E. simpl.
    apply compareCapabilities_Ok in E as (_ & _ & Hord).
    destruct (order <=? 0)%Z.
    + eexists. split; [done|]. constructor; [by constructor|].
      constructor; [done|]. eapply Forall_impl; [exact Hy|].
      intros z Hz. by apply (name_le_trans x y z).
    + destruct (IH Hl) as (r & Er & Hr). rewrite Er. simpl.
      eexists. split; [done|]. constructor; [done|].
      rewrite (sort_insert_perm _ _ _ _ Er). by constructor.
Qed.

Lemma sort_named l :
  Forall named l → ∃ s, sort l = Ok s ∧ StronglySorted name_le s ∧ s ≡ₚ l.
Proof.
  unfold sort. induction 1 as [|x l Hx Hl (s & E & Hs & Hp)]; simpl.
  - eexists. split; [done|]. split; [constructor|done].
  - rewrite E. simpl.
    destruct (sort_insert_sorted x s) as (s' & E' & Hs'); [done| |done|].
    { by rewrite Hp. }
    exists s'. split; [done|]. split; [done|].
    rewrite (sort_insert_perm _ _ _ _ E'). by rewrite Hp.
Qed.

Lemma sort_insert_Ok_named x y l s :
  sort_insert compareCapabilities x (y :: l) = Ok s → named x ∧ named y.
Proof.
  simpl. destruct (compareCapabilities x y) as [order|] eqn:E; [|discriminate].
  apply compareCapabilities_Ok in E as (? & ? & _). done.
Qed.

Lemma sort_Ok_named l s : sort l = Ok s → (2 ≤ length l)%nat → Forall named l.
Proof.
  unfold sort. revert s. induction l as [|x l IH]; intros s; simpl; [lia|].
  destruct (array_sort compareCapabilities l) as [s'|] eqn:E; [|discriminate].
  simpl. intros Hins Hlen.
  pose proof (array_sort_perm _ _ _ E) as Hp.
  destruct s' as [|y s'].
  { apply Permutation_nil_l in Hp. subst l. simpl in Hlen. lia. }
  apply sort_insert_Ok_named in Hins as [Hx Hy].
  constructor; [done|].
  destruct (decide (2 ≤ length l)%nat) as [Hl|Hl]; [by eapply IH|].
  destruct l as [|z [|z' l]]; simpl in Hl; [done| |lia].
  apply Permutation_singleton_r in Hp. injection Hp as -> ->. by constructor.
Qed.

Lemma name_inj_NoDup (l : list Change) x y :
  NoDup (getCapabilityName <$> l) → x ∈ l → y ∈ l →
  getCapabilityName x = getCapabilityName y → x = y.
Proof.
  induction l as [|z l IH]; [by intros _ ?%elem_of_nil|].
  rewrite fmap_cons, NoDup_cons. intros [Hz Hl] Hx Hy E.
  apply elem_of_cons in Hx as [->|Hx], Hy as [->|Hy]; [done| | |by apply IH].
  - exfalso. apply Hz. rewrite E. apply list_elem_of_fmap. eauto.
  - exfalso. apply Hz. rewrite <- E. apply list_elem_of_fmap. eauto.
Qed.

(** C6. On a deduplicated list of changes, which all have a [Name] attribute
    and pairwise distinct derived names, the sorter does not depend on the
    order of its input: every permutation sorts to the same list. *)
Theorem sort_permutation (cs p : list Change) :
  Forall named cs →
  NoDup (getCapabilityName <$> cs) →
  p ≡ₚ cs →
  sort p = sort cs ∧ ∃ s, sort cs = Ok s ∧ StronglySorted name_le s ∧ s ≡ₚ cs.
Proof.
  intros Hcs Hnd Hp.
  destruct (sort_named cs Hcs) as (s & E & Hs & Hperm).
  destruct (sort_named p) as (s' & E' & Hs' & Hperm'); [by rewrite Hp|].
  split; [|eauto]. rewrite E, E'. f_equal.
  apply (StronglySorted_unique_strong name_le); [|done..|].
  - intros x1 x2 H1 H2 (n1 & n2 & E1 & E2 & H12) (n2' & n1' & E2' & E1' & H21).
    assert (n1' = n1) as -> by congruence.
    assert (n2' = n2) as -> by congruence.
    apply (name_inj_NoDup cs); [done| | |].
    + by rewrite <- Hp, <- Hperm'.
    + by rewrite <- Hperm.
    + rewrite E1, E2. f_equal. by apply str_le_antisym.
  - by rewrite Hperm', Hperm.
Qed.

(** ** The capability prefixer *)

Lemma mapM_Ok_fmap {A B} (f : A → result B) (g : A → B) l :
  (∀ x, x ∈ l → f x = Ok (g x)) → mapM f l = Ok (g <$> l).
Proof.
  induction l as [|x l IH]; intros H; simpl; [done|].
  rewrite (H x) by left. simpl. rewrite IH; [done|].
  intros y Hy. apply H. by right.
Qed.

Lemma mapM_Ok_elem_of {A B} (f : A → result B) l k x :
  mapM f l = Ok k → x ∈ l → ∃ y, f x = Ok y ∧ y ∈ k.
Proof.
  revert k. induction l as [|z l IH]; intros k; simpl; [by intros _ ?%elem_of_nil|].
  destruct (f z) as [y|] eqn:E; [|discriminate]. simpl.
  destruct (mapM f l) as [k'|]; [|discriminate]. simpl.
  intros [= <-] [->|Hx]%elem_of_cons.
  - exists y. split; [done|left].
  - destruct (IH k' eq_refl Hx) as (y' & ? & ?). exists y'. split; [done|by right].
Qed.

Lemma mapM_raises {A B} (f : A → result B) l x :
  x ∈ l → raises (f x) → raises (mapM f l).
Proof.
  intros Hx [e He]. destruct (mapM f l) as [k|e'] eqn:E; [|by eexists].
  destruct (mapM_Ok_elem_of f l k x E Hx) as (y & Hy & _). congruence.
Qed.

Lemma skip_space_spec s :
  ∃ ws, s = ws ++ skip_space s ∧ Forall (λ c, is_space c = true) ws.
Proof.
  induction s as [|c s (ws & E & Hws)]; simpl.
  - by exists [].
  - destruct (is_space c) eqn:Hc.
    + exists (c :: ws). split; [by rewrite E at 1|by constructor].
    + by exists [].
Qed.

Lemma test_capability_open_spec s :
  test_capability_open s = true →
  ∃ ws sp rest,
    s = ws ++ js "<Capability" ++ sp :: rest
    ∧ Forall (λ c, is_space c = true) ws ∧ is_space sp = true.
Proof.
  unfold test_capability_open.
  destruct (skip_space_spec s) as (ws & E & Hws).
  destruct (strip_prefix _ (skip_space s)) as [[|sp rest]|] eqn:Es; try done.
  apply strip_prefix_spec in Es. intros Hsp. exists ws, sp, rest.
  by rewrite <- Es.
Qed.

Lemma js_Capability :
  js "Capability" = 67 :: js "apability"
  ∧ js "<Capability" = 60 :: js "Capability"
  ∧ js "<uap:Capability" = 60 :: js "uap:Capability".
Proof. repeat split; reflexivity. Qed.

Lemma replace_first_unfold pat rep s :
  replace_first pat rep s
  = match strip_prefix pat s with
    | Some rest => rep ++ rest
    | None => match s with
              | [] => []
              | c :: s' => c :: replace_first pat rep s'
              end
    end.
Proof. by destruct s. Qed.

Lemma replace_first_Capability rep pre rest :
  Forall (λ c, c ≠ 67) pre →
  replace_first (js "Capability") rep (pre ++ js "Capability" ++ rest)
  = pre ++ rep ++ rest.
Proof.
  induction 1 as [|c pre Hc Hpre IH]; rewrite replace_first_unfold.
  - assert (E : strip_prefix (js "Capability") (js "Capability" ++ rest) = Some rest)
      by by apply strip_prefix_spec.
    change ([] ++ js "Capability" ++ rest) with (js "Capability" ++ rest).
    by rewrite E.
  - destruct js_Capability as [E _]. rewrite E at 1.
    rewrite <- app_comm_cons. cbn [strip_prefix].
    destruct (N.eqb_spec 67 c); [congruence|]. by rewrite IH.
Qed.

Lemma uap_prefixed_spec ws sp rest :
  Forall (λ c, is_space c = true) ws →
  uap_prefixed (ws ++ js "<Capability" ++ sp :: rest)
  = ws ++ js "<uap:Capability" ++ sp :: rest.
Proof.
  intros Hws. unfold uap_prefixed.
  destruct js_Capability as (_ & -> & ->).
  replace (ws ++ (60 :: js "Capability") ++ sp :: rest)
    with ((ws ++ [60]) ++ js "Capability" ++ sp :: rest)
    by by rewrite <- app_assoc.
  rewrite replace_first_Capability.
  - by rewrite <- app_assoc.
  - apply Forall_app. split; [|by repeat constructor].
    eapply Forall_impl; [exact Hws|]. intros c Hc ->. done.
Qed.

Lemma hasCapabilityChange_xml c :
  hasCapabilityChange c = true →
  ∃ s, xml c = Some s ∧ test_capability_open s = true.
Proof.
  unfold hasCapabilityChange. destruct (xml c) as [s|]; simpl; [eauto|].
  intros H. vm_compute in H. discriminate.
Qed.

Lemma prefixed_change_spec c s :
  xml c = Some s → test_capability_open s = true →
  prefixed_of c (prefixed_change c s).
Proof.
  intros Hs (ws & sp & rest & -> & Hws & Hsp)%test_capability_open_spec.
  exists ws, sp, rest. split; [done|]. split; [done|]. split; [done|].
  split; [|done]. unfold prefixed_change. cbn [xml]. by rewrite uap_prefixed_spec.
Qed.

(** *** Variant A *)

Lemma createPrefixedCapabilityChange_A_unprefixed Caps c name :
  getCapabilityName c = Ok name → name ∉ Caps →
  VariantA.createPrefixedCapabilityChange Caps c = Ok c.
Proof.
  intros Hn Hc. unfold VariantA.createPrefixedCapabilityChange.
  rewrite Hn. simpl. by rewrite bool_decide_eq_false_2.
Qed.

Lemma createPrefixedCapabilityChange_A_raises Caps c :
  ¬ named c → raises (VariantA.createPrefixedCapabilityChange Caps c).
Proof.
  intros [e He]%getCapabilityName_raises.
  unfold VariantA.createPrefixedCapabilityChange. rewrite He. by exists e.
Qed.

(** C3, as the code has it. A capability change whose derived name is not in
    the must-prefix set is not dropped by the prefixer of Variant A: it is in
    the output, as it was. *)
Theorem generateUapCapabilities_A_keeps_unprefixed
    (CapsNeedUapPrefix : list jsstring) (cs out : list Change) (c : Change)
    (name : jsstring) :
  c ∈ cs →
  hasCapabilityChange c = true →
  getCapabilityName c = Ok name →
  name ∉ CapsNeedUapPrefix →
  VariantA.generateUapCapabilities CapsNeedUapPrefix cs = Ok out →
  c ∈ out.
Proof.
  intros Hc Hcap Hn Hcaps Hout.
  unfold VariantA.generateUapCapabilities in Hout.
  destruct (mapM_Ok_elem_of _ _ _ c Hout) as (c' & E & Hc').
  { apply list_elem_of_filter. done. }
  rewrite (createPrefixedCapabilityChange_A_unprefixed _ _ name) in E by done.
  by injection E as <-.
Qed.

(** The claim C3 as it is written fails on a change of a capability that
    needs no prefix. *)
Lemma generateUapCapabilities_A_not_excluded :
  hasCapabilityChange (capability "internetClient") = true
  ∧ getCapabilityName (capability "internetClient") = Ok (js "internetClient")
  ∧ (js "internetClient" ∉ sample_CapsNeedUapPrefix)
  ∧ VariantA.generateUapCapabilities sample_CapsNeedUapPrefix
      [capability "internetClient"] = Ok [capability "internetClient"]
  ∧ capability "internetClient" ∈ [capability "internetClient"].
Proof.
  split; [reflexivity|]. split; [reflexivity|]. split.
  - intros H. apply list_elem_of_In in H. vm_compute in H.
    repeat destruct H as [H|H]; try discriminate; done.
  - split; [reflexivity|left].
Qed.

(** *** Variant B *)

Lemma createPrefixedCapabilityChange_B_list cs :
  mapM VariantB.createPrefixedCapabilityChange
    (filter (λ c, hasCapabilityChange c = true) cs)
  = Ok ((λ c, prefixed_change c (default [] (xml c)))
          <$> filter (λ c, hasCapabilityChange c = true) cs).
Proof.
  apply mapM_Ok_fmap. intros c [Hc _]%list_elem_of_filter.
  apply hasCapabilityChange_xml in Hc as (s & Hs & _).
  unfold VariantB.createPrefixedCapabilityChange. by rewrite Hs.
Qed.

Lemma insert_reduce (h : jsstring → result (list Change)) g
    (keys : list jsstring) init :
  (∀ k, h k = Ok (g k)) →
  array_reduce (λ result selector,
    changes ← h selector;
    mret (mkMunge (<[selector := changes]> (parents result)))) keys init
  = Ok (mkMunge (foldl (λ m k, <[k := g k]> m) (parents init) keys)).
Proof.
  intros Hh. revert init. induction keys as [|k keys IH]; intros init; simpl.
  - by destruct init.
  - rewrite Hh. simpl. by rewrite IH.
Qed.

Lemma lookup_foldl_insert (g : jsstring → list Change) (keys : list jsstring)
    (m : gmap jsstring (list Change)) (k : jsstring) :
  foldl (λ m k, <[k := g k]> m) m keys !! k
  = if decide (k ∈ keys) then Some (g k) else m !! k.
Proof.
  revert m. induction keys as [|k' keys IH]; intros m; simpl; [done|].
  rewrite IH. destruct (decide (k ∈ keys)) as [Hk|Hk].
  - rewrite decide_True; [done|by right].
  - destruct (decide (k = k')) as [->|Hne].
    + rewrite decide_True by left. by rewrite lookup_insert_eq.
    + rewrite decide_False by (by intros [?|?]%elem_of_cons).
      by rewrite lookup_insert_ne.
Qed.

Lemma elem_of_object_keys (o : gmap jsstring (list Change)) k :
  k ∈ VariantB.object_keys o ↔ is_Some (o !! k).
Proof.
  unfold VariantB.object_keys. rewrite list_elem_of_fmap. split.
  - intros ([k' v] & -> & H%elem_of_map_to_list). by exists v.
  - intros [v Hv]. exists (k, v). split; [done|]. by apply elem_of_map_to_list.
Qed.


(** ** A change without a [Name] attribute *)

(** C9, as the code has it. The derivation of the capability name raises
    exactly on a change whose xml has no [Name] attribute, and returns the
    value of the leftmost one otherwise. With such a change among them, the
    deduplicator and the sorter raise on two changes or more, and the prefixer
    of Variant A raises when the change opens a [Capability] element. *)
Theorem getCapabilityName_spec (c : Change) :
  (raises (getCapabilityName c) ↔ ¬ named c)
  ∧ (∀ s, xml c = Some s → has_name_attr s →
       ∃ pre rest w,
         s = pre ++ rest ∧ name_match_at rest w
         ∧ (∀ pre' rest' w', s = pre' ++ rest' →
              (length pre' < length pre)%nat → ¬ name_match_at rest' w')
         ∧ getCapabilityName c = Ok w)
  ∧ (¬ named c →
       (∀ cs, c ∈ cs → (2 ≤ length cs)%nat → raises (getUniqueCapabilities cs))
       ∧ (∀ cs, c ∈ cs → (2 ≤ length cs)%nat → raises (sort cs))
       ∧ (∀ CapsNeedUapPrefix cs, c ∈ cs → hasCapabilityChange c = true →
            raises (VariantA.generateUapCapabilities CapsNeedUapPrefix cs))).
Proof.
  split; [apply getCapabilityName_raises|]. split.
  - intros s Hs [w Hw]%match_name_is_Some.
    pose proof Hw as (pre & rest & E & Hm & Hleft)%match_name_Some.
    exists pre, rest, w. repeat (split; [done|]).
    apply getCapabilityName_Ok. eauto.
  - intros Hc. split; [|split].
    + intros cs Hin Hlen.
      destruct (getUniqueCapabilities cs) as [u|e] eqn:E; [|by exists e].
      apply getUniqueCapabilities_Ok_named in E; [|done].
      rewrite Forall_forall in E. destruct Hc. by apply E.
    + intros cs Hin Hlen.
      destruct (sort cs) as [u|e] eqn:E; [|by exists e].
      apply sort_Ok_named in E; [|done].
      rewrite Forall_forall in E. destruct Hc. by apply E.
    + intros Caps cs Hin Hcap. unfold VariantA.generateUapCapabilities.
      apply (mapM_raises _ _ c).
      * by apply list_elem_of_filter.
      * by apply createPrefixedCapabilityChange_A_raises.
Qed.

(** The claim C9 as it is written fails on a change alone in its list, which
    the deduplicator and the sorter return without deriving its name, and on
    a change that is not a capability, which the prefixer drops first. *)
Lemma nameless_change_not_raising :
  ¬ named (fragment "<Capability />")
  ∧ getUniqueCapabilities [fragment "<Capability />"] = Ok [fragment "<Capability />"]
  ∧ sort [fragment "<Capability />"] = Ok [fragment "<Capability />"]
  ∧ ¬ named (fragment "<DeviceCapability />")
  ∧ VariantA.generateUapCapabilities sample_CapsNeedUapPrefix
      [fragment "<DeviceCapability />"] = Ok [].
Proof.
  split; [apply getCapabilityName_raises; by exists TypeError|].
  split; [reflexivity|]. split; [reflexivity|].
  split; [apply getCapabilityName_raises; by exists TypeError|reflexivity].
Qed.

(** ** The edit-config changes *)

(** C10 fails on the code. With no qualified change, the edit-config changes
    are pushed onto [changes] and passed once more as the third argument: the
    base method receives each of them twice. *)
Theorem edit_config_change_passed_twice :
  super_call (generate_plugin_config_munge satisfies_exact [] ()
                (Some [edit_config_change]))
  = mkBaseCall [edit_config_change] () (Some [edit_config_change]).
Proof. reflexivity. Qed.

(** The other path passes them once: with a qualified change, the third
    argument is left out. *)
Lemma edit_config_changes_once_when_demuxed :
  super_call (generate_plugin_config_munge satisfies_exact [sample_change] ()
                (Some [edit_config_change]))
  = mkBaseCall [createReplacement WINDOWS10_MANIFEST sample_change; edit_config_change]
      () None.
Proof. reflexivity. Qed.

(** ** The theorems at sample inputs *)

Lemma demux_coverage_sample :
  satisfies_exact (js "8.1.0") (js "10.0.0") = false
  ∧ satisfies_exact (js "10.0.0") (js "10.0.0") = true
  ∧ demux_change satisfies_exact sample_change
    = [createReplacement WINDOWS10_MANIFEST sample_change].
Proof.
  split; [reflexivity|]. split; [reflexivity|].
  destruct (demux_coverage satisfies_exact sample_change) as [E _];
    [reflexivity..|exact E].
Defined.

Lemma demux_replacement_fields_sample :
  createReplacement WINDOWS10_MANIFEST sample_change
    ∈ demux_change satisfies_exact sample_change
  ∧ xmls (createReplacement WINDOWS10_MANIFEST sample_change) = xmls sample_change
  ∧ xml (createReplacement WINDOWS10_MANIFEST sample_change) = None.
Proof.
  assert (H : createReplacement WINDOWS10_MANIFEST sample_change
              ∈ demux_change satisfies_exact sample_change) by (vm_compute; left).
  split; [exact H|].
  destruct (demux_replacement_fields satisfies_exact sample_change _
              eq_refl eq_refl H) as (_ & _ & _ & E1 & _ & _ & E2 & _).
  split; [exact E1|exact E2].
Defined.

Lemma demux_fallback_sample :
  demux_change satisfies_exact bogus_change
  = with_deviceTarget (Some (js "bogus"))
      <$> demux_change satisfies_exact (with_deviceTarget (Some (js "all")) bogus_change).
Proof.
  destruct (demux_fallback satisfies_exact bogus_change) as [E _];
    [reflexivity|reflexivity| |exact E].
  intros H. apply list_elem_of_In in H. vm_compute in H.
  destruct H as [H|[H|[H|[]]]]; discriminate.
Defined.

Lemma capability_named name w :
  getCapabilityName (capability name) = Ok w → named (capability name).
Proof. intros H. apply getCapabilityName_named. eauto. Qed.

Lemma generateUapCapabilities_A_sample :
  capability "internetClient"
    ∈ [capability "documentsLibrary"; capability "internetClient"]
  ∧ VariantA.generateUapCapabilities sample_CapsNeedUapPrefix
      [capability "documentsLibrary"; capability "internetClient"]
    = Ok [prefixed_change (capability "documentsLibrary")
            (default [] (xml (capability "documentsLibrary")));
          capability "internetClient"]
  ∧ capability "internetClient"
    ∈ [prefixed_change (capability "documentsLibrary")
         (default [] (xml (capability "documentsLibrary")));
       capability "internetClient"].
Proof.
  assert (Hin : capability "internetClient"
                ∈ [capability "documentsLibrary"; capability "internetClient"])
    by (right; left).
  split; [exact Hin|]. split; [reflexivity|].
  apply (generateUapCapabilities_A_keeps_unprefixed sample_CapsNeedUapPrefix
           [capability "documentsLibrary"; capability "internetClient"] _
           (capability "internetClient") (js "internetClient"));
    [exact Hin|reflexivity|reflexivity| |reflexivity].
  intros H. apply list_elem_of_In in H. vm_compute in H.
  repeat destruct H as [H|H]; try discriminate; done.
Defined.

Lemma sample_capabilities_named :
  Forall named [capability "microphone"; capability "internetClient";
                capability "microphone"].
Proof. repeat constructor; by eapply capability_named. Qed.

Lemma getUniqueCapabilities_sample :
  getUniqueCapabilities
    [capability "microphone"; capability "internetClient"; capability "microphone"]
  = Ok [capability "microphone"; capability "internetClient"].
Proof.
  destruct (getUniqueCapabilities_first_occurrences _ sample_capabilities_named)
    as [E _].
  exact E.
Defined.

Lemma getUniqueCapabilities_idempotent_sample :
  ∃ u,
    getUniqueCapabilities
      [capability "microphone"; capability "internetClient"; capability "microphone"]
    = Ok u
    ∧ getUniqueCapabilities u = Ok u.
Proof. exact (getUniqueCapabilities_idempotent _ sample_capabilities_named). Defined.

Lemma sort_permutation_sample :
  sort [capability "internetClient"; capability "microphone"]
  = sort [capability "microphone"; capability "internetClient"].
Proof.
  destruct (sort_permutation
              [capability "microphone"; capability "internetClient"]
              [capability "internetClient"; capability "microphone"]) as [E _];
    [| |apply Permutation_swap|exact E].
  - repeat constructor; by eapply capability_named.
  - apply NoDup_cons. split; [|apply NoDup_singleton].
    intros H%list_elem_of_singleton. vm_compute in H. discriminate.
Defined.

Lemma getCapabilityName_sample :
  getCapabilityName (capability "microphone") = Ok (js "microphone")
  ∧ raises (getUniqueCapabilities [capability "microphone"; fragment "<Capability />"]).
Proof.
  split; [reflexivity|].
  destruct (getCapabilityName_spec (fragment "<Capability />")) as (Hr & _ & H).
  destruct H as (H & _ & _); [apply Hr; by exists TypeError|].
  apply H; [right; left|simpl; lia].
Defined.

(** The scenario of the specification: deduplicating and sorting changes named
    microphone, internetClient, microphone gives internetClient, microphone. *)
Example dedupe_sort_scenario :
  (getUniqueCapabilities
     [capability "microphone"; capability "internetClient"; capability "microphone"]
   ≫= sort)
  = Ok [capability "internetClient"; capability "microphone"].
Proof. reflexivity. Qed.

(** * More of the munger *)

(** ** [cloneObject] *)











(** ** More on the manifest demultiplexer *)

Lemma demux_change_passthrough sat c :
  target c ≠ Some PACKAGE_MANIFEST ∨ has_qualifier c = false →
  demux_change sat c = [c].
Proof.
  intros [Ht|Hq]; unfold demux_change.
  - by rewrite bool_decide_eq_false_2.
  - rewrite Hq. simpl. by destruct (negb _).
Qed.

Lemma manifests_of_cases d :
  manifests_of MANIFESTS d = []
  ∨ (d = js "windows"
     ∧ manifests_of MANIFESTS d
       = [(js "8.1.0", OneManifest WINDOWS_MANIFEST);
          (js "10.0.0", OneManifest WINDOWS10_MANIFEST)])
  ∨ (d = js "phone"
     ∧ manifests_of MANIFESTS d
       = [(js "8.1.0", OneManifest PHONE_MANIFEST);
          (js "10.0.0", OneManifest WINDOWS10_MANIFEST)])
  ∨ (d = js "all"
     ∧ manifests_of MANIFESTS d
       = [(js "8.1.0", ManifestArray [WINDOWS_MANIFEST; PHONE_MANIFEST]);
          (js "10.0.0", OneManifest WINDOWS10_MANIFEST)]).
Proof.
  unfold MANIFESTS. cbn [manifests_of]. unfold str_eqb.
  repeat case_bool_decide; subst; auto.
Qed.

Lemma manifest_files_concrete d winver e f :
  (winver, e) ∈ manifests_of MANIFESTS d → f ∈ manifest_files e →
  f ∈ [WINDOWS_MANIFEST; PHONE_MANIFEST; WINDOWS10_MANIFEST].
Proof.
  destruct (manifests_of_cases d) as [E|[[_ E]|[[_ E]|[_ E]]]]; rewrite E;
    intros He Hf; apply list_elem_of_In in He; simpl in He;
    repeat destruct He as [He|He]; try done; injection He as <- <-;
    apply list_elem_of_In in Hf; simpl in Hf;
    repeat destruct Hf as [Hf|Hf]; try done; subst f;
    apply list_elem_of_In; simpl; auto.
Qed.

Lemma concrete_not_package f :
  f ∈ [WINDOWS_MANIFEST; PHONE_MANIFEST; WINDOWS10_MANIFEST] → f ≠ PACKAGE_MANIFEST.
Proof.
  intros Hf%list_elem_of_In. simpl in Hf.
  destruct Hf as [<-|[<-|[<-|[]]]]; vm_compute; discriminate.
Qed.

Lemma in_demux_change sat c c' :
  c' ∈ demux_change sat c →
  (c' = c ∧ (target c ≠ Some PACKAGE_MANIFEST ∨ has_qualifier c = false))
  ∨ (target c = Some PACKAGE_MANIFEST ∧ has_qualifier c = true
     ∧ ∃ f, f ∈ [WINDOWS_MANIFEST; PHONE_MANIFEST; WINDOWS10_MANIFEST]
            ∧ c' = createReplacement f c).
Proof.
  destruct (decide (target c = Some PACKAGE_MANIFEST)) as [Ht|Ht].
  2:{ rewrite demux_change_passthrough by auto.
      intros ->%list_elem_of_singleton. auto. }
  destruct (has_qualifier c) eqn:Hq.
  2:{ rewrite demux_change_passthrough by auto.
      intros ->%list_elem_of_singleton. auto. }
  rewrite demux_change_qualified by done.
  rewrite list_elem_of_In, in_flat_map. intros ([winver e] & Hin & Hc').
  change (In c' (demux_version sat c (resolve_device c) winver e)) in Hc'.
  rewrite <- list_elem_of_In in Hin. rewrite <- list_elem_of_In in Hc'.
  apply in_demux_version in Hc' as (f & Hf & ->).
  right. split; [done|]. split; [done|]. exists f. split; [|done].
  by eapply manifest_files_concrete.
Qed.

Lemma demux_output_passthrough sat c c' :
  c' ∈ demux_change sat c →
  target c' ≠ Some PACKAGE_MANIFEST ∨ has_qualifier c' = false.
Proof.
  intros [[-> H]|(_ & _ & f & Hf & ->)]%in_demux_change; [done|].
  left. simpl. intros [= E]. by apply concrete_not_package in Hf.
Qed.

Lemma demux_passthrough sat l :
  Forall (λ c, target c ≠ Some PACKAGE_MANIFEST ∨ has_qualifier c = false) l →
  demux sat l = l.
Proof.
  unfold demux. induction 1 as [|c l Hc _ IH]; simpl; [done|].
  by rewrite demux_change_passthrough, IH.
Qed.

(** X3. What the demultiplexer hands on is never a qualified change for
    [package.appxmanifest]: each of its changes is a change of the input
    that is for another file or has no qualifier, unchanged, or a replacement
    that targets one of the three concrete manifests. *)
Theorem demux_output (sat : jsstring → jsstring → bool) (l : list Change) (c' : Change) :
  c' ∈ demux sat l →
  (target c' ≠ Some PACKAGE_MANIFEST ∨ has_qualifier c' = false)
  ∧ (c' ∈ l
     ∨ ∃ c f, c ∈ l ∧ f ∈ [WINDOWS_MANIFEST; PHONE_MANIFEST; WINDOWS10_MANIFEST]
              ∧ c' = createReplacement f c).
Proof.
  unfold demux. rewrite list_elem_of_In, in_flat_map.
  intros (c & Hc%list_elem_of_In & Hc'%list_elem_of_In).
  split; [by eapply demux_output_passthrough|].
  apply in_demux_change in Hc' as [[-> _]|(_ & _ & f & Hf & ->)]; [by left|].
  right. eauto.
Qed.

(** X4. The demultiplexer is idempotent: run on its own output, it changes
    nothing. *)
Theorem demux_idempotent (sat : jsstring → jsstring → bool) (l : list Change) :
  demux sat (demux sat l) = demux sat l.
Proof.
  apply demux_passthrough, Forall_forall. intros c' Hc'.
  unfold demux in Hc'. rewrite list_elem_of_In, in_flat_map in Hc'.
  destruct Hc' as (c & _ & Hc'%list_elem_of_In).
  by eapply demux_output_passthrough.
Qed.



Lemma resolve_device_cases c :
  resolve_device c = js "windows" ∨ resolve_device c = js "phone"
  ∨ resolve_device c = js "all".
Proof.
  unfold resolve_device. case_bool_decide as H; [|auto].
  apply list_elem_of_In in H. simpl in H.
  destruct H as [<-|[<-|[<-|[]]]]; auto.
Qed.

Lemma manifests_of_resolved c :
  manifests_of MANIFESTS (resolve_device c)
  = if decide (resolve_device c = js "windows") then
      [(js "8.1.0", OneManifest WINDOWS_MANIFEST);
       (js "10.0.0", OneManifest WINDOWS10_MANIFEST)]
    else if decide (resolve_device c = js "phone") then
      [(js "8.1.0", OneManifest PHONE_MANIFEST);
       (js "10.0.0", OneManifest WINDOWS10_MANIFEST)]
    else
      [(js "8.1.0", ManifestArray [WINDOWS_MANIFEST; PHONE_MANIFEST]);
       (js "10.0.0", OneManifest WINDOWS10_MANIFEST)].
Proof.
  destruct (resolve_device_cases c) as [E|[E|E]]; rewrite E; reflexivity.
Qed.

(** X6. A change for [package.appxmanifest] whose [versions] range is
    satisfied by neither 8.1.0 nor 10.0.0 is dropped: it has no replacement,
    whatever its [deviceTarget], and a plugin that declares only this change
    hands no change to the base method. *)
Theorem demux_no_version_satisfied (sat : jsstring → jsstring → bool)
    (c : Change) (range : jsstring) :
  target c = Some PACKAGE_MANIFEST →
  versions c = Some range →
  sat (js "8.1.0") range = false →
  sat (js "10.0.0") range = false →
  demux_change sat c = []
  ∧ ∀ (Vars : Type) (vars : Vars),
      base_changes (super_call (generate_plugin_config_munge sat [c] vars None)) = [].
Proof.
  intros Ht Hv H8 H10.
  assert (Hq : has_qualifier c = true) by (unfold has_qualifier; by rewrite Hv).
  assert (E : demux_change sat c = []).
  { rewrite demux_change_qualified, manifests_of_resolved by done.
    repeat case_decide; simpl; unfold demux_version; rewrite Hv; simpl;
      by rewrite H8, H10. }
  split; [done|]. intros Vars vars.
  rewrite base_changes_demux; simpl; [|by rewrite Hq].
  by rewrite E.
Qed.

(** X7. With a [deviceTarget] and no [versions], [semver] is not consulted and
    the replacements go, in this order, to the windows and windows10
    manifests for [windows], to the phone and windows10 manifests for
    [phone], and to the windows, phone and windows10 manifests for any other
    value. *)
Theorem demux_device_only (sat : jsstring → jsstring → bool) (c : Change) (d : jsstring) :
  target c = Some PACKAGE_MANIFEST →
  versions c = None →
  deviceTarget c = Some d →
  demux_change sat c
  = (λ f, createReplacement f c)
      <$> (if decide (d = js "windows") then [WINDOWS_MANIFEST; WINDOWS10_MANIFEST]
           else if decide (d = js "phone") then [PHONE_MANIFEST; WINDOWS10_MANIFEST]
           else [WINDOWS_MANIFEST; PHONE_MANIFEST; WINDOWS10_MANIFEST]).
Proof.
  intros Ht Hv Hd.
  assert (Hq : has_qualifier c = true).
  { unfold has_qualifier. rewrite Hd. apply orb_true_r. }
  assert (Hr : resolve_device c
               = if decide (d = js "windows") then js "windows"
                 else if decide (d = js "phone") then js "phone" else js "all").
  { unfold resolve_device. rewrite Hd. simpl.
    case_bool_decide as H.
    - apply list_elem_of_In in H. simpl in H.
      destruct H as [<-|[<-|[<-|[]]]]; reflexivity.
    - repeat case_decide; subst; try done; exfalso; apply H;
        apply list_elem_of_In; simpl; auto. }
  rewrite demux_change_qualified, manifests_of_resolved, Hr by done.
  repeat case_decide; try done; simpl; unfold demux_version; by rewrite Hv.
Qed.

Lemma demux_change_length sat c : (length (demux_change sat c) ≤ 3)%nat.
Proof.
  destruct (decide (target c = Some PACKAGE_MANIFEST)) as [Ht|Ht].
  2:{ rewrite demux_change_passthrough by auto. simpl. lia. }
  destruct (has_qualifier c) eqn:Hq.
  2:{ rewrite demux_change_passthrough by auto. simpl. lia. }
  rewrite demux_change_qualified, manifests_of_resolved by done.
  repeat case_decide; simpl; unfold demux_version;
    repeat destruct (_ && negb _); simpl; lia.
Qed.

(** X8. A change has three replacements at most: the demultiplexer hands on
    no more than three times as many changes as it was given. *)
Theorem demux_length (sat : jsstring → jsstring → bool) (l : list Change) :
  (length (demux sat l) ≤ 3 * length l)%nat.
Proof.
  unfold demux. induction l as [|c l IH]; simpl; [lia|].
  rewrite length_app. pose proof (demux_change_length sat c). lia.
Qed.

(** ** More on capability names and their order *)

(** X9. A derived capability name is never empty and is made of the
    characters of [\w] only: letters, digits and the underscore. *)
Theorem getCapabilityName_word (c : Change) (name : jsstring) :
  getCapabilityName c = Ok name →
  name ≠ [] ∧ Forall (λ x, is_word x = true) name.
Proof.
  intros (s & _ & Hm)%getCapabilityName_Ok.
  apply match_name_Some in Hm as (pre & rest & _ & Hm & _).
  destruct Hm as (nm & post & _ & _ & Hne & Hw). done.
Qed.

Lemma str_lt_irrefl a : str_lt a a = false.
Proof.
  destruct (str_lt a a) eqn:E; [|done]. by rewrite (str_lt_asym _ _ E) in E.
Qed.

(** X10. [compareCapabilities] is a consistent comparator: it returns -1, 0
    or 1; swapping its arguments negates the result; and it returns 0 exactly
    when the two derived names are equal. *)
Theorem compareCapabilities_consistent (a b : Change) (order : Z) :
  compareCapabilities a b = Ok order →
  (order = -1 ∨ order = 0 ∨ order = 1)%Z
  ∧ compareCapabilities b a = Ok (- order)%Z
  ∧ (order = 0%Z ↔ getCapabilityName a = getCapabilityName b).
Proof.
  unfold compareCapabilities.
  destruct (getCapabilityName a) as [n1|]; [|discriminate]. simpl.
  destruct (getCapabilityName b) as [n2|]; [|discriminate]. simpl.
  destruct (str_lt n1 n2) eqn:E1.
  - intros [= <-]. rewrite (str_lt_asym _ _ E1). simpl.
    split; [auto|]. split; [done|]. split; [done|].
    intros [= ->]. by rewrite str_lt_irrefl in E1.
  - destruct (str_lt n2 n1) eqn:E2; intros [= <-]; simpl.
    + split; [auto|]. split; [done|]. split; [done|].
      intros [= ->]. by rewrite str_lt_irrefl in E2.
    + split; [auto|]. split; [done|]. split; [|done].
      intros _. f_equal. by apply str_le_antisym.
Qed.

(** ** More on the deduplicator *)

Lemma keep_unique_grows acc x r :
  keep_unique acc x = Ok r → r = acc ∨ r = acc ++ [x].
Proof.
  unfold keep_unique. destruct (array_some _ acc) as [[]|]; simpl;
    [intros [= <-]; auto..|discriminate].
Qed.

Lemma keep_unique_reduce_sublist l acc u :
  array_reduce keep_unique l acc = Ok u →
  ∃ u', u = acc ++ u' ∧ u' `sublist_of` l.
Proof.
  revert acc. induction l as [|x l IH]; intros acc; simpl.
  - intros [= <-]. exists []. by rewrite app_nil_r.
  - destruct (keep_unique acc x) as [r|] eqn:E; [|discriminate]. simpl.
    intros (u' & -> & Hu')%IH.
    apply keep_unique_grows in E as [->| ->].
    + exists u'. split; [done|]. by apply sublist_cons.
    + exists (x :: u'). rewrite <- app_assoc. split; [done|]. by apply sublist_skip.
Qed.


(** X12. On changes that all have a [Name] attribute, the deduplicator
    returns its input as it is exactly when the derived names are pairwise
    distinct. *)
Theorem getUniqueCapabilities_fixed_point (cs : list Change) :
  Forall named cs →
  getUniqueCapabilities cs = Ok cs ↔ NoDup (getCapabilityName <$> cs).
Proof.
  intros Hcs. rewrite getUniqueCapabilities_named by done. split.
  - intros [= E]. rewrite <- E. apply first_occurrences_NoDup.
  - intros Hnd. f_equal. by apply first_occurrences_id.
Qed.

(** ** More on the sorter *)

(** X13. On changes that all have a [Name] attribute the sorter succeeds, and
    returns a permutation of its input in which no change comes before a
    change of a smaller name. *)
Theorem sort_sorted_permutation (l : list Change) :
  Forall named l →
  ∃ s, sort l = Ok s ∧ s ≡ₚ l ∧ StronglySorted name_le s.
Proof.
  intros (s & E & Hs & Hp)%sort_named. eauto.
Qed.

Lemma compareCapabilities_le x y :
  name_le x y → ∃ order, compareCapabilities x y = Ok order ∧ (order <=? 0)%Z = true.
Proof.
  intros (n1 & n2 & E1 & E2 & H). unfold compareCapabilities.
  rewrite E1, E2. simpl. rewrite H.
  destruct (str_lt n1 n2); by eexists.
Qed.

Lemma sort_sorted l : StronglySorted name_le l → sort l = Ok l.
Proof.
  unfold sort. induction 1 as [|x l Hl IH Hx]; simpl; [done|].
  rewrite IH. simpl. destruct Hx as [|y l Hxy _]; simpl; [done|].
  destruct (compareCapabilities_le x y Hxy) as (order & -> & Ho). simpl.
  by rewrite Ho.
Qed.

(** X14. The sorter leaves alone a list that is in order, changes of equal
    names included; sorting what the sorter returned changes nothing. *)
Theorem sort_idempotent (l s : list Change) :
  (StronglySorted name_le l → sort l = Ok l)
  ∧ (sort l = Ok s → sort s = Ok s).
Proof.
  split; [apply sort_sorted|]. intros E.
  destruct (decide (2 ≤ length l)%nat) as [Hlen|Hlen].
  - pose proof (sort_Ok_named _ _ E Hlen) as Hl.
    destruct (sort_named l Hl) as (s' & E' & Hs' & _).
    assert (s' = s) as -> by congruence. by apply sort_sorted.
  - destruct l as [|x [|y l]]; simpl in Hlen; [| |lia]; by injection E as <-.
Qed.

Lemma name_le_lt x y :
  name_le x y → getCapabilityName x ≠ getCapabilityName y → name_lt x y.
Proof.
  intros (n1 & n2 & E1 & E2 & H) Hne. exists n1, n2.
  split; [done|]. split; [done|].
  destruct (str_lt n1 n2) eqn:E; [done|].
  destruct Hne. rewrite E1, E2. f_equal. by apply str_le_antisym.
Qed.

Lemma sorted_strict s :
  StronglySorted name_le s → NoDup (getCapabilityName <$> s) →
  StronglySorted name_lt s.
Proof.
  induction 1 as [|x l Hl IH Hx]; [constructor|].
  rewrite fmap_cons, NoDup_cons. intros [Hnx Hnd].
  constructor; [by apply IH|].
  rewrite Forall_forall in Hx. apply Forall_forall. intros y Hy.
  apply name_le_lt; [by apply Hx|]. intros E. apply Hnx. rewrite E.
  apply list_elem_of_fmap. eauto.
Qed.

Lemma dedupe_sort_strict cs s :
  (getUniqueCapabilities cs ≫= sort) = Ok s →
  ∃ u, getUniqueCapabilities cs = Ok u ∧ s ≡ₚ u ∧ StronglySorted name_lt s.
Proof.
  destruct (getUniqueCapabilities cs) as [u|] eqn:Eu; [|discriminate]. simpl.
  intros Es. exists u. split; [done|].
  split; [by apply (array_sort_perm compareCapabilities)|].
  destruct (decide (2 ≤ length cs)%nat) as [Hlen|Hlen].
  - pose proof (getUniqueCapabilities_Ok_named _ _ Eu Hlen) as Hcs.
    rewrite getUniqueCapabilities_named in Eu by done. injection Eu as <-.
    destruct (sort_named (first_occurrences cs)) as (s' & E' & Hs' & Hp).
    { rewrite Forall_forall in Hcs. apply Forall_forall. intros c Hc.
      apply Hcs. eapply elem_of_sublist, first_occurrences_sublist. done. }
    assert (s' = s) as -> by congruence.
    apply sorted_strict; [done|]. rewrite Hp. apply first_occurrences_NoDup.
  - destruct cs as [|x [|y l]]; simpl in Hlen; [| |lia];
      injection Eu as <-; injection Es as <-; repeat constructor.
Qed.

(** X15. Deduplicating and then sorting, as on install, gives the changes in
    strictly increasing order of their derived names, whenever it does not
    raise: a canonical list, with each name once. *)
Theorem dedupe_sort_canonical (cs s : list Change) :
  (getUniqueCapabilities cs ≫= sort) = Ok s →
  StronglySorted name_lt s
  ∧ ∃ u, getUniqueCapabilities cs = Ok u ∧ s ≡ₚ u ∧ u `sublist_of` cs.
Proof.
  intros (u & Eu & Hp & Hs)%dedupe_sort_strict. split; [done|].
  exists u. split; [done|]. split; [done|].
  unfold getUniqueCapabilities in Eu. destruct cs as [|c cs].
  - by injection Eu as <-.
  - change (array_reduce keep_unique cs [c] = Ok u) in Eu.
    apply keep_unique_reduce_sublist in Eu as (u' & -> & Hu').
    by apply sublist_skip.
Qed.

(** ** More on the capability prefixer *)

Lemma canonicalize_N c : canonicalize c = 78 → c = 78 ∨ c = 110.
Proof.
  unfold canonicalize.
  destruct (N.leb_spec 97 c), (N.leb_spec c 122); simpl; lia.
Qed.

Lemma is_space_not_N c : is_space c = true → canonicalize c ≠ 78.
Proof.
  intros Hc [->| ->]%canonicalize_N; vm_compute in Hc; discriminate.
Qed.

Lemma match_name_at_not_N c s : canonicalize c ≠ 78 → match_name_at (c :: s) = None.
Proof.
  intros Hc. unfold match_name_at.
  change NAME_ATTR with (78 :: (js "ame=" ++ [QUOTE])). cbn [strip_prefix_ci].
  change (canonicalize 78) with 78.
  destruct (N.eqb_spec 78 (canonicalize c)); [congruence|done].
Qed.

Lemma match_name_skip pre s :
  Forall (λ c, canonicalize c ≠ 78) pre → match_name (pre ++ s) = match_name s.
Proof.
  induction 1 as [|c pre Hc _ IH]; [done|].
  rewrite match_name_unfold. rewrite <- app_comm_cons.
  by rewrite match_name_at_not_N.
Qed.

Lemma no_N_literals :
  Forall (λ c, canonicalize c ≠ 78) (js "<Capability")
  ∧ Forall (λ c, canonicalize c ≠ 78) (js "<uap:Capability").
Proof.
  split; apply Forall_forall; intros c Hc%list_elem_of_In Hn;
    apply canonicalize_N in Hn as [->| ->]; vm_compute in Hc;
    repeat destruct Hc as [Hc|Hc]; try discriminate; done.
Qed.

Lemma prefixed_of_name c c' :
  prefixed_of c c' → getCapabilityName c' = getCapabilityName c.
Proof.
  intros (ws & sp & rest & Hc & Hws & _ & Hc' & _).
  unfold getCapabilityName. rewrite Hc, Hc'.
  assert (Hn : Forall (λ x, canonicalize x ≠ 78) ws).
  { eapply Forall_impl; [exact Hws|]. apply is_space_not_N. }
  destruct no_N_literals as [H1 H2].
  rewrite !(match_name_skip ws) by done.
  by rewrite !match_name_skip by done.
Qed.

Lemma skip_space_app ws s :
  Forall (λ c, is_space c = true) ws → skip_space (ws ++ s) = skip_space s.
Proof. induction 1 as [|c ws Hc _ IH]; simpl; [done|]. by rewrite Hc. Qed.

Lemma prefixed_of_not_capability c c' :
  prefixed_of c c' → hasCapabilityChange c' = false.
Proof.
  intros (ws & sp & rest & _ & Hws & _ & Hc' & _).
  unfold hasCapabilityChange. rewrite Hc'. simpl.
  unfold test_capability_open. rewrite skip_space_app by done. reflexivity.
Qed.

(** X16. Prefixing keeps the derived capability name, so that the
    deduplicator and the sorter treat a prefixed change as they treat the
    change it comes from; and a prefixed change does not pass the test for a
    capability change again. *)
Theorem prefixed_change_name (c : Change) (s : jsstring) :
  xml c = Some s →
  hasCapabilityChange c = true →
  getCapabilityName (prefixed_change c s) = getCapabilityName c
  ∧ hasCapabilityChange (prefixed_change c s) = false.
Proof.
  intros Hs Hc. unfold hasCapabilityChange in Hc. rewrite Hs in Hc. simpl in Hc.
  pose proof (prefixed_change_spec c s Hs Hc) as Hp.
  split; [by apply prefixed_of_name|by eapply prefixed_of_not_capability].
Qed.

Lemma createPrefixedCapabilityChange_A_named Caps c :
  named c → VariantA.createPrefixedCapabilityChange Caps c = Ok (prefixed_A Caps c).
Proof.
  intros Hc. pose proof Hc as (w & Hw)%getCapabilityName_named.
  destruct Hc as (s & Hs & _).
  unfold VariantA.createPrefixedCapabilityChange, prefixed_A.
  rewrite Hw, Hs. simpl. by destruct (bool_decide _).
Qed.

Lemma prefixed_A_name Caps c :
  hasCapabilityChange c = true →
  getCapabilityName (prefixed_A Caps c) = getCapabilityName c.
Proof.
  intros Hc. unfold prefixed_A.
  destruct (getCapabilityName c) as [name|] eqn:E; [|done].
  destruct (bool_decide _); [|done].
  pose proof Hc as (s & Hs & Ht)%hasCapabilityChange_xml.
  rewrite Hs. simpl. rewrite <- E. apply prefixed_of_name.
  by apply prefixed_change_spec.
Qed.

Lemma generateUapCapabilities_A_named Caps cs :
  Forall named (filter (λ c, hasCapabilityChange c = true) cs) →
  VariantA.generateUapCapabilities Caps cs
  = Ok (prefixed_A Caps <$> filter (λ c, hasCapabilityChange c = true) cs).
Proof.
  intros H. unfold VariantA.generateUapCapabilities. apply mapM_Ok_fmap.
  rewrite Forall_forall in H. intros c Hc.
  by apply createPrefixedCapabilityChange_A_named, H.
Qed.

Lemma prefixed_A_names Caps (cs : list Change) :
  getCapabilityName
    <$> (prefixed_A Caps <$> filter (λ c, hasCapabilityChange c = true) cs)
  = getCapabilityName <$> filter (λ c, hasCapabilityChange c = true) cs.
Proof.
  rewrite <- list_fmap_compose. apply Forall_fmap_ext_1, Forall_forall.
  intros c [Hc _]%list_elem_of_filter. by apply prefixed_A_name.
Qed.

(** X17. When the capability changes all have a [Name] attribute, the
    prefixer of Variant A returns one change for each of them, in order,
    with the same derived name: the prefixed change of a name of the
    must-prefix set, the change itself of another name. *)
Theorem generateUapCapabilities_A_round_trip
    (CapsNeedUapPrefix : list jsstring) (cs : list Change) :
  Forall named (filter (λ c, hasCapabilityChange c = true) cs) →
  ∃ out,
    VariantA.generateUapCapabilities CapsNeedUapPrefix cs = Ok out
    ∧ getCapabilityName <$> out
      = getCapabilityName <$> filter (λ c, hasCapabilityChange c = true) cs
    ∧ Forall2 (λ c c',
        ∃ name, getCapabilityName c = Ok name
          ∧ if bool_decide (name ∈ CapsNeedUapPrefix) then prefixed_of c c'
            else c' = c)
        (filter (λ c, hasCapabilityChange c = true) cs) out.
Proof.
  intros H. eexists. split; [by apply generateUapCapabilities_A_named|].
  split; [apply prefixed_A_names|].
  apply Forall2_fmap_r, Forall_Forall2_diag.
  rewrite Forall_forall in H. apply Forall_forall. intros c Hc.
  pose proof (H c Hc) as (name & Hn)%getCapabilityName_named.
  apply list_elem_of_filter in Hc as [Hc _].
  exists name. split; [done|]. unfold prefixed_A. rewrite Hn.
  destruct (bool_decide _); [|done].
  apply hasCapabilityChange_xml in Hc as (s & Hs & Ht).
  rewrite Hs. simpl. by apply prefixed_change_spec.
Qed.

Lemma generateUapCapabilities_B_fmap (munge : Munge) :
  VariantB.generateUapCapabilities munge
  = Ok (mkMunge (prefixed_B <$> parents munge)).
Proof.
  unfold VariantB.generateUapCapabilities.
  rewrite (insert_reduce _ (λ k, prefixed_B (default [] (parents munge !! k)))).
  2:{ intros k. apply createPrefixedCapabilityChange_B_list. }
  f_equal. f_equal. apply map_eq. intros k.
  rewrite lookup_foldl_insert, lookup_fmap. simpl.
  destruct (decide (k ∈ _)) as [Hk|Hk].
  - apply elem_of_object_keys in Hk as [cs Hcs]. by rewrite Hcs.
  - rewrite lookup_empty.
    destruct (parents munge !! k) eqn:E; [|done].
    destruct Hk. apply elem_of_object_keys. eauto.
Qed.


(** X18. The two prefixers agree on capabilities that all need the prefix:
    when the name of every capability change of a selector is in the
    must-prefix set, Variant A returns for the changes of the selector the
    list that Variant B puts under the selector. *)
Theorem generateUapCapabilities_variants_agree
    (CapsNeedUapPrefix : list jsstring) (munge : Munge)
    (selector : jsstring) (cs : list Change) :
  parents munge !! selector = Some cs →
  (∀ c, c ∈ cs → hasCapabilityChange c = true →
        ∃ name, getCapabilityName c = Ok name ∧ name ∈ CapsNeedUapPrefix) →
  ∃ result out,
    VariantB.generateUapCapabilities munge = Ok result
    ∧ parents result !! selector = Some out
    ∧ VariantA.generateUapCapabilities CapsNeedUapPrefix cs = Ok out.
Proof.
  intros Hsel Hcs. eexists _, (prefixed_B cs).
  split; [apply generateUapCapabilities_B_fmap|].
  split; [simpl; by rewrite lookup_fmap, Hsel|].
  unfold VariantA.generateUapCapabilities, prefixed_B.
  apply mapM_Ok_fmap. intros c [Hc Hin]%list_elem_of_filter.
  destruct (Hcs c Hin Hc) as (name & Hn & Hcaps).
  unfold VariantA.createPrefixedCapabilityChange. rewrite Hn. simpl.
  rewrite bool_decide_eq_true_2 by done.
  apply hasCapabilityChange_xml in Hc as (s & Hs & _). by rewrite Hs.
Qed.


(** ** [apply_file_munge] of Variant A *)

Lemma apply_file_munge_A_caps Caps file munge remove caps :
  parents munge !! CAPS_SELECTOR = Some caps →
  DriverA.apply_file_munge Caps file munge remove
  = (c1 ← (if bool_decide (file = WINDOWS10_MANIFEST)
           then VariantA.generateUapCapabilities Caps caps else Ok caps);
     c2 ← (if negb remove then getUniqueCapabilities c1 ≫= sort else Ok c1);
     Ok (mkApplyCall file (mkMunge (<[CAPS_SELECTOR := c2]> (parents munge))) remove)).
Proof. intros H. unfold DriverA.apply_file_munge. by rewrite H. Qed.

Lemma bind_Ok {A B} (m : result A) (f : A → result B) b :
  (m ≫= f) = Ok b ↔ ∃ a, m = Ok a ∧ f a = Ok b.
Proof.
  destruct m as [a|e]; simpl.
  - split; [eauto|]. by intros (? & [= <-] & ?).
  - split; [discriminate|]. by intros (? & ? & ?).
Qed.


Lemma apply_file_munge_A_unchanged_None Caps file munge remove :
  parents munge !! CAPS_SELECTOR = None →
  DriverA.apply_file_munge Caps file munge remove = Ok (mkApplyCall file munge remove).
Proof. intros E. unfold DriverA.apply_file_munge. by rewrite E. Qed.


(** X22. On install the capabilities that Variant A hands to the base method
    are in strictly increasing order of their derived names, for every
    manifest: no name twice, and an order that does not depend on the order
    of the plugins. *)
Theorem apply_file_munge_A_install_sorted (CapsNeedUapPrefix : list jsstring)
    (file : jsstring) (munge : Munge) (caps : list Change) (call : ApplyCall) :
  parents munge !! CAPS_SELECTOR = Some caps →
  DriverA.apply_file_munge CapsNeedUapPrefix file munge false = Ok call →
  ∃ out,
    parents (apply_munge call) !! CAPS_SELECTOR = Some out
    ∧ StronglySorted name_lt out.
Proof.
  intros E. rewrite (apply_file_munge_A_caps _ _ _ _ caps) by done.
  intros (c1 & _ & (out & Hout & [= <-])%bind_Ok)%bind_Ok. simpl in *.
  exists out. split; [by rewrite lookup_insert_eq|].
  by apply dedupe_sort_strict in Hout as (_ & _ & _ & ?).
Qed.

Lemma sort_perm_eq (cs p : list Change) :
  Forall named cs → NoDup (getCapabilityName <$> cs) → p ≡ₚ cs →
  sort p = sort cs.
Proof.
  intros Hcs Hnd Hp.
  destruct (sort_named cs Hcs) as (s & E & Hs & Hperm).
  destruct (sort_named p) as (s' & E' & Hs' & Hperm'); [by rewrite Hp|].
  rewrite E, E'. f_equal.
  apply (StronglySorted_unique_strong name_le); [|done..|].
  - intros x1 x2 H1 H2 (n1 & n2 & E1 & E2 & H12) (n2' & n1' & E2' & E1' & H21).
    assert (n1' = n1) as -> by congruence.
    assert (n2' = n2) as -> by congruence.
    apply (name_inj_NoDup cs); [done| | |].
    + by rewrite <- Hp, <- Hperm'.
    + by rewrite <- Hperm.
    + rewrite E1, E2. f_equal. by apply str_le_antisym.
  - by rewrite Hperm', Hperm.
Qed.

Lemma dedupe_sort_perm_eq (cs p : list Change) :
  Forall named cs → NoDup (getCapabilityName <$> cs) → p ≡ₚ cs →
  (getUniqueCapabilities p ≫= sort) = (getUniqueCapabilities cs ≫= sort).
Proof.
  intros Hcs Hnd Hp.
  rewrite !getUniqueCapabilities_named by by rewrite ?Hp.
  rewrite !first_occurrences_id by by rewrite ?Hp.
  simpl. by apply sort_perm_eq.
Qed.

(** X23. On install the call of the base method does not depend on the order
    of the capability changes: two munges that differ only in the order of
    the changes under [/Package/Capabilities], all with a [Name] attribute
    and pairwise distinct names, give the same call, for every manifest. *)
Theorem apply_file_munge_A_order_independent (CapsNeedUapPrefix : list jsstring)
    (file : jsstring) (munge : Munge) (cs p : list Change) :
  parents munge !! CAPS_SELECTOR = Some cs →
  Forall named cs →
  NoDup (getCapabilityName <$> cs) →
  p ≡ₚ cs →
  DriverA.apply_file_munge CapsNeedUapPrefix file
    (mkMunge (<[CAPS_SELECTOR := p]> (parents munge))) false
  = DriverA.apply_file_munge CapsNeedUapPrefix file munge false.
Proof.
  intros E Hcs Hnd Hp.
  rewrite (apply_file_munge_A_caps _ _ munge _ cs) by done.
  rewrite (apply_file_munge_A_caps _ _ (mkMunge _) _ p)
    by (simpl; apply lookup_insert_eq).
  simpl.
  assert (Hins : ∀ c2, <[CAPS_SELECTOR := c2]> (<[CAPS_SELECTOR := p]> (parents munge))
                       = <[CAPS_SELECTOR := c2]> (parents munge))
    by (intros; apply insert_insert_eq).
  case_bool_decide.
  - assert (Hf : ∀ l : list Change, l ≡ₚ cs →
               Forall named (filter (λ c, hasCapabilityChange c = true) l)).
    { intros l Hl. apply Forall_forall. intros c [_ Hc]%list_elem_of_filter.
      rewrite Forall_forall in Hcs. apply Hcs. by rewrite <- Hl. }
    rewrite !generateUapCapabilities_A_named by auto. simpl.
    rewrite (dedupe_sort_perm_eq
               (prefixed_A CapsNeedUapPrefix
                  <$> filter (λ c, hasCapabilityChange c = true) cs)
               (prefixed_A CapsNeedUapPrefix
                  <$> filter (λ c, hasCapabilityChange c = true) p)).
    + destruct (_ ≫= sort); simpl; [by rewrite Hins|done].
    + apply Forall_forall. intros c' (c & -> & Hc)%list_elem_of_fmap.
      apply getCapabilityName_named.
      pose proof Hc as [Hcap Hin]%list_elem_of_filter.
      rewrite prefixed_A_name by done. apply getCapabilityName_named.
      rewrite Forall_forall in Hcs. by apply Hcs.
    + rewrite prefixed_A_names.
      eapply sublist_NoDup; [exact Hnd|].
      apply fmap_sublist, sublist_filter.
    + by rewrite Hp.
  - simpl. rewrite (dedupe_sort_perm_eq cs p) by done.
    destruct (_ ≫= sort); simpl; [by rewrite Hins|done].
Qed.

Lemma name_lt_le x y : name_lt x y → name_le x y.
Proof.
  intros (n1 & n2 & E1 & E2 & H). exists n1, n2.
  split; [done|]. split; [done|]. by apply str_lt_asym.
Qed.

Lemma strict_sorted_le s : StronglySorted name_lt s → StronglySorted name_le s.
Proof.
  induction 1 as [|x l _ IH Hx]; constructor; [done|].
  eapply Forall_impl; [exact Hx|]. apply name_lt_le.
Qed.

Lemma strict_sorted_NoDup s :
  StronglySorted name_lt s → NoDup (getCapabilityName <$> s).
Proof.
  induction 1 as [|x l _ IH Hx]; [constructor|].
  rewrite fmap_cons. apply NoDup_cons. split; [|done].
  intros (y & E & Hy)%list_elem_of_fmap.
  rewrite Forall_forall in Hx. destruct (Hx y Hy) as (n1 & n2 & E1 & E2 & H).
  assert (n1 = n2) as -> by congruence. by rewrite str_lt_irrefl in H.
Qed.

Lemma strict_sorted_fixed s :
  StronglySorted name_lt s → (getUniqueCapabilities s ≫= sort) = Ok s.
Proof.
  intros Hs. destruct s as [|x [|y l]]; [done..|].
  assert (Hn : Forall named (x :: y :: l)).
  { inversion Hs as [|? ? Hl Hx]; subst.
    inversion Hx as [|? ? (n1 & n2 & E1 & E2 & _) Hxl]; subst.
    constructor; [apply getCapabilityName_named; eauto|].
    eapply Forall_impl; [exact Hx|].
    intros z (? & n & _ & E & _). apply getCapabilityName_named. eauto. }
  rewrite getUniqueCapabilities_named by done.
  rewrite first_occurrences_id by by apply strict_sorted_NoDup.
  simpl. by apply sort_sorted, strict_sorted_le.
Qed.

(** X24. Installing is idempotent on the manifests other than the windows10
    one: [apply_file_munge] of Variant A, given the munge it has handed to
    the base method, hands on that munge again. *)
Theorem apply_file_munge_A_install_idempotent (CapsNeedUapPrefix : list jsstring)
    (file : jsstring) (munge : Munge) (call : ApplyCall) :
  file ≠ WINDOWS10_MANIFEST →
  DriverA.apply_file_munge CapsNeedUapPrefix file munge false = Ok call →
  DriverA.apply_file_munge CapsNeedUapPrefix file (apply_munge call) false = Ok call.
Proof.
  intros Hf. destruct (parents munge !! CAPS_SELECTOR) as [caps|] eqn:E.
  - rewrite (apply_file_munge_A_caps _ _ munge _ caps) by done.
    rewrite bool_decide_eq_false_2 by done. simpl.
    intros (out & Hout & [= <-])%bind_Ok. simpl.
    rewrite (apply_file_munge_A_caps _ _ _ _ out) by (simpl; apply lookup_insert_eq).
    rewrite bool_decide_eq_false_2 by done. simpl.
    apply dedupe_sort_strict in Hout as (_ & _ & _ & Hs).
    rewrite (strict_sorted_fixed _ Hs). simpl. by rewrite insert_insert_eq.
  - rewrite apply_file_munge_A_unchanged_None by done. intros [= <-]. simpl.
    by apply apply_file_munge_A_unchanged_None.
Qed.

Lemma mapM_Ok_eq {A B} (f : A → result B) (g : A → B) l k :
  mapM f l = Ok k → (∀ x y, x ∈ l → f x = Ok y → y = g x) → k = g <$> l.
Proof.
  revert k. induction l as [|x l IH]; intros k; simpl.
  - by intros [= <-].
  - destruct (f x) as [y|] eqn:E; [|discriminate]. simpl.
    destruct (mapM f l) as [k'|]; [|discriminate]. simpl.
    intros [= <-] H. rewrite (H x y) by (done || left).
    rewrite (IH k' eq_refl); [done|]. intros x' y' Hx'. apply H. by right.
Qed.

Lemma createPrefixedCapabilityChange_A_Ok Caps c c' :
  VariantA.createPrefixedCapabilityChange Caps c = Ok c' → c' = prefixed_A Caps c.
Proof.
  unfold VariantA.createPrefixedCapabilityChange, prefixed_A.
  destruct (getCapabilityName c) as [name|]; [|discriminate]. simpl.
  destruct (bool_decide _); [|by intros [= <-]].
  destruct (xml c) as [s|]; [|discriminate]. by intros [= <-].
Qed.

Lemma generateUapCapabilities_A_Ok Caps cs out :
  VariantA.generateUapCapabilities Caps cs = Ok out →
  out = prefixed_A Caps <$> filter (λ c, hasCapabilityChange c = true) cs.
Proof.
  unfold VariantA.generateUapCapabilities. intros H.
  apply (mapM_Ok_eq _ _ _ _ H). intros x y _.
  apply createPrefixedCapabilityChange_A_Ok.
Qed.

(** X25. For the windows10 manifest, Variant A hands to the base method only
    what the prefixer makes of the changes that open a [Capability] element:
    a change under [/Package/Capabilities] that opens another element is left
    out. On removal these are all of them, in order, neither deduplicated nor
    sorted. *)
Theorem apply_file_munge_A_windows10 (CapsNeedUapPrefix : list jsstring)
    (munge : Munge) (caps : list Change) (remove : bool) (call : ApplyCall) :
  parents munge !! CAPS_SELECTOR = Some caps →
  DriverA.apply_file_munge CapsNeedUapPrefix WINDOWS10_MANIFEST munge remove
    = Ok call →
  ∃ out,
    parents (apply_munge call) !! CAPS_SELECTOR = Some out
    ∧ (∀ c', c' ∈ out →
         ∃ c, c ∈ caps ∧ hasCapabilityChange c = true
              ∧ c' = prefixed_A CapsNeedUapPrefix c)
    ∧ (remove = true →
       out = prefixed_A CapsNeedUapPrefix
               <$> filter (λ c, hasCapabilityChange c = true) caps).
Proof.
  intros E. rewrite (apply_file_munge_A_caps _ _ _ _ caps) by done.
  rewrite bool_decide_eq_true_2 by done.
  intros (c1 & ->%generateUapCapabilities_A_Ok
          & (out & Hout & [= <-])%bind_Ok)%bind_Ok. simpl.
  exists out. split; [by rewrite lookup_insert_eq|].
  assert (Hin : ∀ c', c' ∈ prefixed_A CapsNeedUapPrefix
                         <$> filter (λ c, hasCapabilityChange c = true) caps →
                ∃ c, c ∈ caps ∧ hasCapabilityChange c = true
                     ∧ c' = prefixed_A CapsNeedUapPrefix c).
  { intros c' (c & -> & [Hc Hin]%list_elem_of_filter)%list_elem_of_fmap. eauto. }
  destruct remove; simpl in Hout.
  - injection Hout as <-. done.
  - split; [|done]. intros c' Hc'. apply Hin.
    apply dedupe_sort_strict in Hout as (u & Hu & Hp & _).
    rewrite Hp in Hc'.
    unfold getUniqueCapabilities in Hu.
    destruct (prefixed_A CapsNeedUapPrefix <$> _) as [|x l] eqn:El.
    + injection Hu as <-. by apply elem_of_nil in Hc'.
    + change (array_reduce keep_unique l [x] = Ok u) in Hu.
      apply keep_unique_reduce_sublist in Hu as (u' & -> & Hu').
      eapply elem_of_sublist; [exact Hc'|]. by apply sublist_skip.
Qed.

(** ** [apply_file_munge] of Variant B *)


(** ** These properties at sample inputs *)


Lemma demux_output_sample :
  createReplacement WINDOWS10_MANIFEST sample_change
    ∈ demux satisfies_exact [edit_config_change; sample_change]
  ∧ (target (createReplacement WINDOWS10_MANIFEST sample_change)
       ≠ Some PACKAGE_MANIFEST
     ∨ has_qualifier (createReplacement WINDOWS10_MANIFEST sample_change) = false).
Proof.
  assert (H : createReplacement WINDOWS10_MANIFEST sample_change
              ∈ demux satisfies_exact [edit_config_change; sample_change])
    by (vm_compute; right; left).
  split; [exact H|].
  exact (proj1 (demux_output satisfies_exact _ _ H)).
Defined.

Lemma demux_no_version_satisfied_sample :
  demux_change satisfies_exact unsupported_change = [].
Proof.
  exact (proj1 (demux_no_version_satisfied satisfies_exact unsupported_change
                  (js "9.0.0") eq_refl eq_refl eq_refl eq_refl)).
Defined.

Lemma demux_device_only_sample :
  target <$> demux_change satisfies_exact phone_change
  = [Some PHONE_MANIFEST; Some WINDOWS10_MANIFEST].
Proof.
  rewrite (demux_device_only satisfies_exact phone_change (js "phone")
             eq_refl eq_refl eq_refl).
  reflexivity.
Defined.

Lemma getCapabilityName_word_sample :
  js "microphone" ≠ [] ∧ Forall (λ x, is_word x = true) (js "microphone").
Proof.
  exact (getCapabilityName_word (capability "microphone") (js "microphone") eq_refl).
Defined.

Lemma compareCapabilities_consistent_sample :
  compareCapabilities (capability "microphone") (capability "internetClient") = Ok 1%Z
  ∧ compareCapabilities (capability "internetClient") (capability "microphone")
    = Ok (-1)%Z.
Proof.
  split; [reflexivity|].
  exact (proj1 (proj2 (compareCapabilities_consistent
                         (capability "microphone") (capability "internetClient")
                         1%Z eq_refl))).
Defined.


Lemma getUniqueCapabilities_fixed_point_sample :
  getUniqueCapabilities [capability "microphone"; capability "internetClient"]
  = Ok [capability "microphone"; capability "internetClient"].
Proof.
  apply getUniqueCapabilities_fixed_point.
  - repeat constructor; by eapply capability_named.
  - apply NoDup_cons. split; [|apply NoDup_singleton].
    intros H%list_elem_of_singleton. vm_compute in H. discriminate.
Defined.

Lemma sort_sorted_permutation_sample :
  ∃ s, sort [capability "microphone"; capability "internetClient"] = Ok s
       ∧ s ≡ₚ [capability "microphone"; capability "internetClient"]
       ∧ StronglySorted name_le s.
Proof.
  apply sort_sorted_permutation. repeat constructor; by eapply capability_named.
Defined.

Lemma sort_idempotent_sample :
  sort [capability "internetClient"; capability "microphone"]
  = Ok [capability "internetClient"; capability "microphone"].
Proof.
  exact (proj2 (sort_idempotent
                  [capability "microphone"; capability "internetClient"]
                  [capability "internetClient"; capability "microphone"])
           eq_refl).
Defined.

Lemma dedupe_sort_canonical_sample :
  StronglySorted name_lt [capability "internetClient"; capability "microphone"].
Proof.
  exact (proj1 (dedupe_sort_canonical
                  [capability "microphone"; capability "internetClient";
                   capability "microphone"]
                  [capability "internetClient"; capability "microphone"] eq_refl)).
Defined.

Lemma prefixed_change_name_sample :
  getCapabilityName
    (prefixed_change (capability "documentsLibrary")
       (default [] (xml (capability "documentsLibrary"))))
  = Ok (js "documentsLibrary").
Proof.
  exact (proj1 (prefixed_change_name (capability "documentsLibrary") _
                  eq_refl eq_refl)).
Defined.

Lemma generateUapCapabilities_A_round_trip_sample :
  ∃ out,
    VariantA.generateUapCapabilities sample_CapsNeedUapPrefix
      [capability "documentsLibrary"; fragment "<Application />";
       capability "internetClient"] = Ok out
    ∧ getCapabilityName <$> out
      = [Ok (js "documentsLibrary"); Ok (js "internetClient")].
Proof.
  destruct (generateUapCapabilities_A_round_trip sample_CapsNeedUapPrefix
              [capability "documentsLibrary"; fragment "<Application />";
               capability "internetClient"]) as (out & E & Hn & _).
  - repeat constructor; by eapply capability_named.
  - exists out. split; [exact E|exact Hn].
Defined.

Lemma sample_munge_capabilities :
  parents sample_munge !! CAPS_SELECTOR
  = Some [capability "microphone"; capability "internetClient";
          capability "microphone"].
Proof. apply lookup_insert_eq. Qed.

Lemma sample_munge_install :
  DriverA.apply_file_munge sample_CapsNeedUapPrefix WINDOWS_MANIFEST sample_munge false
  = Ok sample_call.
Proof.
  rewrite (apply_file_munge_A_caps _ _ _ _ _ sample_munge_capabilities).
  reflexivity.
Qed.

Lemma generateUapCapabilities_variants_agree_sample :
  ∃ result out,
    VariantB.generateUapCapabilities
      (mkMunge {[CAPS_SELECTOR := [capability "documentsLibrary"]]}) = Ok result
    ∧ parents result !! CAPS_SELECTOR = Some out
    ∧ VariantA.generateUapCapabilities sample_CapsNeedUapPrefix
        [capability "documentsLibrary"] = Ok out.
Proof.
  apply generateUapCapabilities_variants_agree.
  - apply lookup_singleton_eq.
  - intros c ->%list_elem_of_singleton _. exists (js "documentsLibrary").
    split; [reflexivity|left].
Defined.



Lemma apply_file_munge_A_install_sorted_sample :
  ∃ out,
    parents (apply_munge sample_call) !! CAPS_SELECTOR = Some out
    ∧ StronglySorted name_lt out.
Proof.
  exact (apply_file_munge_A_install_sorted _ _ _ _ _
           sample_munge_capabilities sample_munge_install).
Defined.

Lemma apply_file_munge_A_order_independent_sample :
  DriverA.apply_file_munge sample_CapsNeedUapPrefix WINDOWS10_MANIFEST
    (mkMunge (<[CAPS_SELECTOR := [capability "microphone"; capability "documentsLibrary"]]>
                (parents (mkMunge {[CAPS_SELECTOR := [capability "documentsLibrary";
                                                      capability "microphone"]]}))))
    false
  = DriverA.apply_file_munge sample_CapsNeedUapPrefix WINDOWS10_MANIFEST
      (mkMunge {[CAPS_SELECTOR := [capability "documentsLibrary";
                                   capability "microphone"]]})
      false.
Proof.
  apply (apply_file_munge_A_order_independent _ _ _
           [capability "documentsLibrary"; capability "microphone"]).
  - apply lookup_singleton_eq.
  - repeat constructor; by eapply capability_named.
  - apply NoDup_cons. split; [|apply NoDup_singleton].
    intros H%list_elem_of_singleton. vm_compute in H. discriminate.
  - apply Permutation_swap.
Defined.

Lemma apply_file_munge_A_install_idempotent_sample :
  DriverA.apply_file_munge sample_CapsNeedUapPrefix WINDOWS_MANIFEST
    (apply_munge sample_call) false
  = Ok sample_call.
Proof.
  apply (apply_file_munge_A_install_idempotent _ _ sample_munge).
  - vm_compute. discriminate.
  - exact sample_munge_install.
Defined.

Lemma sample_munge_remove_windows10 :
  DriverA.apply_file_munge sample_CapsNeedUapPrefix WINDOWS10_MANIFEST
    (mkMunge {[CAPS_SELECTOR := [capability "documentsLibrary";
                                 fragment "<DeviceCapability />"]]})
    true
  = Ok (mkApplyCall WINDOWS10_MANIFEST
          (mkMunge {[CAPS_SELECTOR :=
                       [prefixed_change (capability "documentsLibrary")
                          (default [] (xml (capability "documentsLibrary")))]]})
          true).
Proof.
  rewrite (apply_file_munge_A_caps _ _
             (mkMunge {[CAPS_SELECTOR := [capability "documentsLibrary";
                                          fragment "<DeviceCapability />"]]}) _
             [capability "documentsLibrary"; fragment "<DeviceCapability />"])
    by apply lookup_singleton_eq.
  simpl. by rewrite insert_singleton_eq.
Qed.

Lemma apply_file_munge_A_windows10_sample :
  ∃ out,
    parents (mkMunge {[CAPS_SELECTOR :=
                         [prefixed_change (capability "documentsLibrary")
                            (default [] (xml (capability "documentsLibrary")))]]})
      !! CAPS_SELECTOR = Some out
    ∧ ∀ c', c' ∈ out →
        ∃ c, c ∈ [capability "documentsLibrary"; fragment "<DeviceCapability />"]
             ∧ hasCapabilityChange c = true
             ∧ c' = prefixed_A sample_CapsNeedUapPrefix c.
Proof.
  destruct (apply_file_munge_A_windows10 _
              (mkMunge {[CAPS_SELECTOR := [capability "documentsLibrary";
                                           fragment "<DeviceCapability />"]]})
              [capability "documentsLibrary"; fragment "<DeviceCapability />"] _ _
              (lookup_singleton_eq _ _) sample_munge_remove_windows10)
    as (out & E & H & _).
  exists out. split; [exact E|exact H].
Defined.

(** ** [cordova/base64] *)

Example uint8ToBase64_Man : uint8ToBase64 [77; 97; 110]%Z = js "TWFu".
Proof. reflexivity. Qed.

Example uint8ToBase64_Ma : uint8ToBase64 [77; 97]%Z = js "TWE=".
Proof. reflexivity. Qed.

Example uint8ToBase64_M : uint8ToBase64 [77]%Z = js "TQ==".
Proof. reflexivity. Qed.

Lemma int32_small z : (-2147483648 ≤ z < 2147483648)%Z → int32 z = z.
Proof. intros H. unfold int32. rewrite Z.mod_small; lia. Qed.

Lemma shl32_byte b n :
  is_byte b → (0 ≤ n ≤ 16)%Z → shl32 b n = (b * 2 ^ n)%Z.
Proof.
  intros Hb Hn. unfold shl32, is_byte in *.
  rewrite (int32_small b) by lia. rewrite Z.shiftl_mul_pow2 by lia.
  apply int32_small.
  assert (0 < 2 ^ n ≤ 2 ^ 16)%Z.
  { split; [apply Z.pow_pos_nonneg; lia|apply Z.pow_le_mono_r; lia]. }
  change (2 ^ 16)%Z with 65536%Z in *. nia.
Qed.

Lemma sar32_small z n :
  (0 ≤ z < 2147483648)%Z → (0 ≤ n)%Z → sar32 z n = (z / 2 ^ n)%Z.
Proof.
  intros Hz Hn. unfold sar32. rewrite int32_small by lia.
  by apply Z.shiftr_div_pow2.
Qed.

Lemma and32_4095 z : (0 ≤ z < 2147483648)%Z → and32 z 4095 = (z `mod` 4096)%Z.
Proof.
  intros Hz. unfold and32. rewrite !int32_small by lia.
  change 4095%Z with (Z.ones 12). by rewrite Z.land_ones by lia.
Qed.

Lemma b64_table_check :
  forallb (λ n, bool_decide
                  (table_at (Z.of_nat n)
                   = [b64_char (Z.of_nat n / 64); b64_char (Z.of_nat n `mod` 64)]))
    (seq 0 4096) = true.
Proof. vm_compute. reflexivity. Qed.

Lemma table_at_spec k :
  (0 ≤ k < 4096)%Z → table_at k = [b64_char (k / 64); b64_char (k `mod` 64)].
Proof.
  intros Hk. pose proof b64_table_check as H.
  rewrite forallb_forall in H. specialize (H (Z.to_nat k)).
  rewrite Z2Nat.id in H by lia. apply bool_decide_eq_true in H; [done|].
  apply in_seq. lia.
Qed.

Lemma b64_char_check :
  forallb (λ n, bool_decide
                  (char_at b64_6bit (Z.of_nat n) = [b64_char (Z.of_nat n)]
                   ∧ b64_index (b64_char (Z.of_nat n)) = Z.of_nat n
                   ∧ b64_char (Z.of_nat n) ≠ 61
                   ∧ b64_char (Z.of_nat n) ∈ b64_6bit))
    (seq 0 64) = true.
Proof. vm_compute. reflexivity. Qed.

Lemma b64_char_spec i :
  (0 ≤ i < 64)%Z →
  char_at b64_6bit i = [b64_char i] ∧ b64_index (b64_char i) = i
  ∧ b64_char i ≠ 61 ∧ b64_char i ∈ b64_6bit.
Proof.
  intros Hi. pose proof b64_char_check as H.
  rewrite forallb_forall in H. specialize (H (Z.to_nat i)).
  rewrite Z2Nat.id in H by lia. apply bool_decide_eq_true in H; [done|].
  apply in_seq. lia.
Qed.

Lemma b64_char_inj i j :
  (0 ≤ i < 64)%Z → (0 ≤ j < 64)%Z → b64_char i = b64_char j → i = j.
Proof.
  intros Hi Hj E.
  destruct (b64_char_spec i Hi) as (_ & <- & _).
  destruct (b64_char_spec j Hj) as (_ & <- & _). by rewrite E.
Qed.

Lemma list_ind3 {A} (P : list A → Prop) :
  P [] → (∀ x, P [x]) → (∀ x y, P [x; y]) →
  (∀ x y z l, P l → P (x :: y :: z :: l)) →
  ∀ l, P l.
Proof.
  intros H0 H1 H2 H3 l.
  assert (H : P l ∧ (∀ x, P (x :: l)) ∧ (∀ x y, P (x :: y :: l))).
  { induction l as [|z l (IH0 & IH1 & IH2)]; [by auto|].
    split; [apply IH1|]. split; [intros x; apply IH2|].
    intros x y. by apply H3. }
  apply H.
Qed.

Lemma uint8ToBase64_three output b0 b1 b2 rest :
  is_byte b0 → is_byte b1 → is_byte b2 →
  uint8ToBase64_from output (b0 :: b1 :: b2 :: rest)
  = uint8ToBase64_from (output ++ b64_quad (b0 * 65536 + b1 * 256 + b2)) rest.
Proof.
  intros H0 H1 H2. cbn [uint8ToBase64_from].
  rewrite !shl32_byte by (done || lia).
  change (2 ^ 16)%Z with 65536%Z. change (2 ^ 8)%Z with 256%Z.
  unfold is_byte in *.
  rewrite sar32_small, and32_4095 by lia. change (2 ^ 12)%Z with 4096%Z.
  rewrite !table_at_spec by div_lia. done.
Qed.

Lemma uint8ToBase64_two output b0 b1 :
  is_byte b0 → is_byte b1 →
  uint8ToBase64_from output [b0; b1]
  = output ++ take 3 (b64_quad (b0 * 65536 + b1 * 256)) ++ [61].
Proof.
  intros H0 H1. cbn [uint8ToBase64_from].
  rewrite !shl32_byte by (done || lia).
  change (2 ^ 16)%Z with 65536%Z. change (2 ^ 8)%Z with 256%Z.
  unfold is_byte in *.
  rewrite and32_4095 by lia. rewrite !sar32_small by div_lia.
  change (2 ^ 12)%Z with 4096%Z. change (2 ^ 6)%Z with 64%Z.
  rewrite table_at_spec by div_lia.
  destruct (b64_char_spec ((b0 * 65536 + b1 * 256) `mod` 4096 / 64)) as [-> _];
    [div_lia|].
  done.
Qed.

Lemma uint8ToBase64_one output b0 :
  is_byte b0 →
  uint8ToBase64_from output [b0]
  = output ++ take 2 (b64_quad (b0 * 65536)) ++ [61; 61].
Proof.
  intros H0. cbn [uint8ToBase64_from].
  rewrite !shl32_byte by (done || lia). change (2 ^ 16)%Z with 65536%Z.
  unfold is_byte in *.
  rewrite sar32_small by lia. change (2 ^ 12)%Z with 4096%Z.
  rewrite table_at_spec by div_lia. done.
Qed.

Lemma uint8ToBase64_from_output l :
  ∀ output, uint8ToBase64_from output l = output ++ uint8ToBase64 l.
Proof.
  unfold uint8ToBase64.
  induction l as [|x|x y|x y z l IH] using list_ind3; intros output;
    cbn [uint8ToBase64_from]; rewrite ?app_nil_r; try done.
  rewrite IH, (IH ([] ++ _)). by rewrite <- app_assoc.
Qed.

Lemma uint8ToBase64_cons3 b0 b1 b2 rest :
  is_byte b0 → is_byte b1 → is_byte b2 →
  uint8ToBase64 (b0 :: b1 :: b2 :: rest)
  = b64_quad (b0 * 65536 + b1 * 256 + b2) ++ uint8ToBase64 rest.
Proof.
  intros H0 H1 H2. unfold uint8ToBase64 at 1.
  rewrite uint8ToBase64_three by done. by rewrite uint8ToBase64_from_output.
Qed.

Lemma b64_quad_alphabet s :
  (0 ≤ s < 16777216)%Z → Forall (λ c, c ∈ b64_6bit ∧ c ≠ 61) (b64_quad s).
Proof.
  intros Hs. unfold b64_quad.
  repeat (constructor;
          [match goal with
           | |- b64_char ?i ∈ _ ∧ _ =>
               destruct (b64_char_spec i) as (_ & _ & ? & ?); [div_lia|done]
           end|]).
  constructor.
Qed.

(** X27. The base64 text of [n] bytes has [4 * ceil(n / 3)] characters. *)
Theorem uint8ToBase64_length (rawData : list Z) :
  Forall is_byte rawData →
  length (uint8ToBase64 rawData) = (4 * ((length rawData + 2) / 3))%nat.
Proof.
  induction rawData as [|x|x y|x y z l IH] using list_ind3; intros H.
  - done.
  - rewrite Forall_singleton in H. unfold uint8ToBase64.
    by rewrite uint8ToBase64_one by done.
  - apply Forall_cons in H as [Hx [Hy _]%Forall_cons]. unfold uint8ToBase64.
    by rewrite uint8ToBase64_two by done.
  - apply Forall_cons in H as [Hx [Hy [Hz Hl]%Forall_cons]%Forall_cons].
    rewrite uint8ToBase64_cons3, length_app, IH by done.
    cbn [length].
    replace (S (S (S (length l))) + 2)%nat with ((length l + 2) + 1 * 3)%nat by lia.
    rewrite Nat.div_add by lia. simpl. lia.
Qed.

(** X28. The base64 text is made of characters of the alphabet [b64_6bit],
    followed by as many [=] as bytes are missing from the last group of
    three: none, one or two. *)
Theorem uint8ToBase64_alphabet (rawData : list Z) :
  Forall is_byte rawData →
  ∃ body,
    uint8ToBase64 rawData
    = body ++ replicate ((3 - length rawData `mod` 3) `mod` 3)%nat 61
    ∧ Forall (λ c, c ∈ b64_6bit ∧ c ≠ 61) body.
Proof.
  induction rawData as [|x|x y|x y z l IH] using list_ind3; intros H.
  - by exists [].
  - rewrite Forall_singleton in H. unfold uint8ToBase64.
    rewrite uint8ToBase64_one by done.
    exists (take 2 (b64_quad (x * 65536))). split; [done|].
    apply Forall_take, b64_quad_alphabet. div_lia.
  - apply Forall_cons in H as [Hx [Hy _]%Forall_cons]. unfold uint8ToBase64.
    rewrite uint8ToBase64_two by done.
    exists (take 3 (b64_quad (x * 65536 + y * 256))). split; [done|].
    apply Forall_take, b64_quad_alphabet. div_lia.
  - apply Forall_cons in H as [Hx [Hy [Hz Hl]%Forall_cons]%Forall_cons].
    destruct (IH Hl) as (body & E & Hbody).
    rewrite uint8ToBase64_cons3, E by done.
    exists (b64_quad (x * 65536 + y * 256 + z) ++ body). split.
    + rewrite <- app_assoc. do 2 f_equal. cbn [length].
      replace (S (S (S (length l)))) with (length l + 1 * 3)%nat by lia.
      by rewrite Nat.Div0.mod_add.
    + apply Forall_app. split; [|done]. apply b64_quad_alphabet. div_lia.
Qed.

Lemma uint8ToBase64_shapes x y :
  is_byte x → is_byte y →
  uint8ToBase64 [] = []
  ∧ uint8ToBase64 [x] = take 2 (b64_quad (x * 65536)) ++ [61; 61]
  ∧ uint8ToBase64 [x; y] = take 3 (b64_quad (x * 65536 + y * 256)) ++ [61].
Proof.
  intros Hx Hy. unfold uint8ToBase64.
  by rewrite uint8ToBase64_one, uint8ToBase64_two by done.
Qed.

(** X29. Different bytes have different base64 texts: the text determines
    the bytes it was made from. *)
Theorem uint8ToBase64_injective (a b : list Z) :
  Forall is_byte a → Forall is_byte b →
  uint8ToBase64 a = uint8ToBase64 b → a = b.
Proof.
  revert b. induction a as [|x|x y|x y z l IH] using list_ind3;
    intros b Ha Hb; destruct b as [|x' [|y' [|z' l']]];
    repeat match goal with
    | H : Forall is_byte (_ :: _) |- _ => apply Forall_cons in H as [? H]
    end;
    repeat match goal with
    | Hx : is_byte ?x |- context [uint8ToBase64 [?x]] =>
        destruct (uint8ToBase64_shapes x x Hx Hx) as (_ & -> & _)
    | Hx : is_byte ?x, Hy : is_byte ?y |- context [uint8ToBase64 [?x; ?y]] =>
        destruct (uint8ToBase64_shapes x y Hx Hy) as (_ & _ & ->)
    | |- context [uint8ToBase64 (_ :: _ :: _ :: _)] =>
        rewrite uint8ToBase64_cons3 by done
    end;
    unfold b64_quad; cbn [take app]; intros E; try discriminate E;
    try done;
    injection E; clear E; intros;
    repeat match goal with
    | H : b64_char ?i = 61 |- _ =>
        exfalso; destruct (b64_char_spec i) as (_ & _ & Hne & _);
        [div_lia|exact (Hne H)]
    | H : 61 = b64_char ?i |- _ => symmetry in H
    | H : b64_char ?i = b64_char ?j |- _ =>
        apply b64_char_inj in H; [|div_lia|div_lia]
    end;
    try (repeat f_equal; div_lia).
  assert (x = x' ∧ y = y' ∧ z = z') as (-> & -> & ->) by div_lia.
  do 3 f_equal. by apply IH.
Qed.

Lemma sample_bytes : Forall is_byte [77; 97]%Z.
Proof. repeat constructor; unfold is_byte; lia. Qed.

Lemma uint8ToBase64_length_sample : length (uint8ToBase64 [77; 97]%Z) = 4%nat.
Proof. exact (uint8ToBase64_length [77; 97]%Z sample_bytes). Defined.

Lemma uint8ToBase64_alphabet_sample :
  ∃ body,
    uint8ToBase64 [77; 97]%Z = body ++ [61]
    ∧ Forall (λ c, c ∈ b64_6bit ∧ c ≠ 61) body.
Proof. exact (uint8ToBase64_alphabet [77; 97]%Z sample_bytes). Defined.

Lemma uint8ToBase64_injective_sample :
  uint8ToBase64 [77; 97]%Z = js "TWE=" ∧ [77; 97]%Z = [77; 97]%Z.
Proof.
  split; [reflexivity|].
  exact (uint8ToBase64_injective _ _ sample_bytes sample_bytes eq_refl).
Defined.
